(** * snapcraft/yaml.py: part graph, build order and environments

    A shallow embedding of [snapcraft.yaml.Config]: loading the parts of a
    validated [snapcraft.yaml] mapping, closing them under [requires],
    attaching the dependency edges, ordering the parts, and composing the
    environment lists.

    Python objects are modelled by a store: a part object is a record kept
    in a [heap], and a reference to it is its address in that heap.  The
    lists [all_parts], [newParts] and [deps] of the source hold references,
    so that appending to [part.deps] is seen through every alias, and
    [part in other.deps] compares references, as Python does for objects
    of a class without [__eq__]. *)

From Stdlib Require Import ZArith Ascii.
From stdpp Require Import base option list gmap strings sorting relations.

Local Open Scope string_scope.
Local Open Scope list_scope.
Local Open Scope nat_scope.

(** ** Data model *)

(** A reference to a part object. *)
Abbreviation ref := nat.

(** The properties of one entry of [parts] in the validated mapping.  The
    two keys the constructor reads, [plugin] and [after], are fields typed as
    the schema types them; testing ["plugin" in properties] is [is_Some],
    and [del properties["plugin"]] resets the field.  Every other key is
    kept in [options] and only handed on to the plugin loader. *)
Record Properties := {
  plugin : option string;
  after : option (list string);
  options : gmap string string
}.

Definition no_properties : Properties :=
  {| plugin := None; after := None; options := ∅ |}.

#[global] Instance Properties_inhabited : Inhabited Properties :=
  populate no_properties.

(** [del properties["plugin"]] and [del properties["after"]], each done
    when the key is there. *)
Definition strip_keys (properties : Properties) : Properties :=
  {| plugin := None; after := None; options := options properties |}.

(** The parsed [snapcraft.yaml]: [self.data].  The [parts] mapping is kept
    as the list of its items in iteration order, each with the content that
    its value has when the loop over the parts reaches it ([as_read] below
    gives it for a document whose values are objects). *)
Record Yaml := {
  yaml_build_tools : option (list string);
  yaml_parts : option (list (string * option Properties))
}.

(** [self.data] with the values of [parts] as objects: a value is [None]
    (a key without value) or the address of a mapping in [doc_mappings].
    Two keys may hold the same address (a YAML anchor and its alias). *)
Record Document := {
  doc_build_tools : option (list string);
  doc_parts : option (list (string * option ref));
  doc_mappings : list Properties
}.

(** Modelled from the spec: the class of part objects lives in
    [snapcraft.plugin], which is not among the sources.  The fields are those
    of the spec's data model ([name], [pluginName], [properties], [config],
    [deps], [installDir]) and the operation [env(root)]; [config] is the
    mapping read with [config.get('requires', [])] and
    [config.get('build-tools', [])]. *)
Record Part := {
  name : string;
  pluginName : string;
  properties : Properties;
  config : gmap string (list string);
  deps : list ref;
  installdir : string;
  env : string → list string
}.

(** Modelled from the spec: [part.names()], of which the source reads the
    members and the first element; a part has one name. *)
Definition names (p : Part) : list string := [name p].

#[global] Instance Part_inhabited : Inhabited Part :=
  populate {| name := EmptyString; pluginName := EmptyString;
              properties := no_properties; config := ∅; deps := [];
              installdir := EmptyString; env := λ _, [] |}.

(** What the plugin loader computes for a part, outside this file. *)
Record Plugin := {
  plugin_config : gmap string (list string);
  plugin_installdir : string;
  plugin_env : string → list string
}.

(** [self] of [Config]: the object store together with the attributes
    [build_tools] and [all_parts]. *)
Record Config := {
  heap : list Part;
  build_tools : list string;
  all_parts : list ref
}.

(** Exceptions leaving the constructor. [sys.exit(1)] raises [SystemExit]. *)
Inductive exn :=
  | SnapcraftLogicError (message : string)
  | SystemExit (code : Z).

(** Outcome of a computation: a value, an exception, or the bound on the
    number of loop iterations was reached before the loop ended. *)
Inductive result (A : Type) :=
  | Ret (a : A)
  | Raise (e : exn)
  | OutOfFuel.
Arguments Ret {A} a.
Arguments Raise {A} e.
Arguments OutOfFuel {A}.

#[global] Instance result_ret : MRet result := λ A a, Ret a.

#[global] Instance result_bind : MBind result := λ A B k m,
  match m with
  | Ret a => k a
  | Raise e => Raise e
  | OutOfFuel => OutOfFuel
  end.

Definition circular_dependency : exn :=
  SnapcraftLogicError "circular dependency chain found in parts definition".

(** ** [Config._sort_parts] *)

(** [part.deps] through the store. *)
Definition deps_of (h : list Part) (part : ref) : list ref := deps (h !!! part).

(** The inner scan: is [part] in the [deps] of some part of [all_parts]? *)
Definition mentioned (h : list Part) (all_parts : list ref) (part : ref) : bool :=
  existsb (λ other, bool_decide (part ∈ deps_of h other)) all_parts.

(** The outer scan: the first part of [all_parts] that is not mentioned;
    [None] is [top_part = None] at the end of the [for]. *)
Definition find_top (h : list Part) (all_parts : list ref) : option ref :=
  find (λ part, negb (mentioned h all_parts part)) all_parts.

(** [list.remove(x)]: drops the first occurrence.  Python raises when there
    is none; the sort only removes a part it has just found in the list. *)
Fixpoint list_remove_first (x : ref) (l : list ref) : list ref :=
  match l with
  | [] => []
  | y :: l' => if decide (x = y) then l' else y :: list_remove_first x l'
  end.

(** The [while self.all_parts] loop; [fuel] bounds the number of
    iterations of its body.  A part object is true in a condition, so that
    [if not top_part] holds exactly when the scan found no part. *)
Fixpoint sort_loop (fuel : nat) (h : list Part)
    (all_parts sorted_parts : list ref) : result (list ref) :=
  match all_parts with
  | [] => Ret sorted_parts
  | _ :: _ =>
    match fuel with
    | 0 => OutOfFuel
    | S fuel' =>
      match find_top h all_parts with
      | None => Raise circular_dependency
      | Some top_part =>
        sort_loop fuel' h (list_remove_first top_part all_parts)
                  (top_part :: sorted_parts)
      end
    end
  end.

(** [_sort_parts]: the loop run for at most one iteration per part. *)
Definition _sort_parts (h : list Part) (all_parts : list ref) : result (list ref) :=
  sort_loop (length all_parts) h all_parts [].

(** ** Loops and string formatting *)

(** A [for] loop whose body may raise: the state is threaded through the
    elements in order and the first exception ends the loop. *)
Fixpoint for_each {A S : Type} (body : S → A → result S) (l : list A) (s : S)
    : result S :=
  match l with
  | [] => Ret s
  | x :: l' => s' ← body s x; for_each body l' s'
  end.

(** The character that opens and closes the value of an assignment. *)
Definition dquote : string := String "034"%char EmptyString.

Definition digit_of (c : ascii) : option nat :=
  let n := nat_of_ascii c in
  if bool_decide (48 ≤ n ≤ 57) then Some (n - 48) else None.

(** [template.format(args...)] for the templates of this file: text with the
    replacement fields [{0}] ... [{9}], each replaced by the argument of
    that position.  The text of an argument is inserted as it is. *)
Fixpoint format (template : string) (args : list string) : string :=
  match template with
  | EmptyString => EmptyString
  | String "{" (String d (String "}" rest as tl2) as tl1) =>
    match digit_of d with
    | Some i => default EmptyString (args !! i) +:+ format rest args
    | None => String "{" (format tl1 args)
    end
  | String c rest => String c (format rest args)
  end.

Section Collaborators.

(** The collaborators of the constructor that live outside this file: the
    plugin loader ([snapcraft.plugin.load_plugin], given the part name, the
    plugin name and the properties) and the lookups of [snapcraft.common]. *)
Variable snapcraft_plugin : string → string → Properties → Plugin.
Variable get_arch_triplet : string.
Variable get_stagedir : string.
Variable get_snapdir : string.

(** Modelled from the spec: [snapcraft.plugin.load_plugin], which is not
    among the sources, returns a new part object of the given name, plugin
    name and properties, with the [config], install directory and [env]
    of the plugin and with no dependency attached yet. *)
Definition plugin_load_plugin (part_name plugin_name : string)
    (properties : Properties) : Part :=
  let pl := snapcraft_plugin part_name plugin_name properties in
  {| name := part_name; pluginName := plugin_name; properties := properties;
     config := plugin_config pl; deps := [];
     installdir := plugin_installdir pl; env := plugin_env pl |}.

(** [part.config.get(key, [])]. *)
Definition config_get (p : Part) (key : string) : list string :=
  default [] (config p !! key).

(** [part.config.get('build-tools', [])]. *)
Definition part_build_tools (p : Part) : list string :=
  config_get p "build-tools".


(** ** [Config.load_plugin] *)

(** The new object takes the next free address of the store. *)
Definition load_plugin (self : Config) (part_name plugin_name : string)
    (properties : Properties) : Config * ref :=
  let part := plugin_load_plugin part_name plugin_name properties in
  let r := length (heap self) in
  ({| heap := heap self ++ [part];
      build_tools := build_tools self ++ config_get part "build-tools";
      all_parts := all_parts self ++ [r] |}, r).

(** ** [Config.__init__] *)

(** The body of [for part_name in self.data.get("parts", [])], on the
    content that the entry has when the loop reads it: an entry
    without properties counts as the empty mapping, the plugin name
    defaults to the part name, and the keys [plugin] and [after] are taken
    out before the part is loaded.  [load_plugin] is called with its
    default [load_code].  The effect of the two [del] on a mapping that
    several entries hold is in [load_declared_shared] below. *)
Definition load_declared (acc : Config * gmap string (list string))
    (item : string * option Properties) : Config * gmap string (list string) :=
  let '(self, afterRequests) := acc in
  let '(part_name, entry) := item in
  let properties := default no_properties entry in
  let plugin_name := default part_name (plugin properties) in
  let afterRequests :=
    match after properties with
    | Some l => <[part_name := l]> afterRequests
    | None => afterRequests
    end in
  let properties :=
    {| plugin := None; after := None; options := options properties |} in
  ((load_plugin self part_name plugin_name properties).1, afterRequests).

(** The same loop body on the mapping objects: [properties] is the object
    at the address held under [part_name], and the two [del] change that
    object, for every key that holds it.  An empty mapping is false in
    [... or {}] and replaced by a new empty one, which has the same
    content; a key without value gives a new empty mapping as well. *)
Definition load_declared_shared
    (acc : Config * gmap string (list string) * list Properties)
    (item : string * option ref)
    : Config * gmap string (list string) * list Properties :=
  let '(self, afterRequests, mappings) := acc in
  let '(part_name, entry) := item in
  let properties := from_option (λ r, mappings !!! r) no_properties entry in
  let plugin_name := default part_name (plugin properties) in
  let afterRequests :=
    match after properties with
    | Some l => <[part_name := l]> afterRequests
    | None => afterRequests
    end in
  let mappings := from_option (λ r, alter strip_keys r mappings) mappings entry in
  ((load_plugin self part_name plugin_name (strip_keys properties)).1,
   afterRequests, mappings).

(** The scan [for p in self.all_parts: if requiredPart in p.names()]. *)
Definition already_present (self : Config) (requiredPart : string) : bool :=
  existsb (λ p, bool_decide (requiredPart ∈ names (heap self !!! p)))
          (all_parts self).

(** The body of [for requiredPart in requires]. *)
Definition require_part (acc : Config * list ref) (requiredPart : string)
    : Config * list ref :=
  let '(self, newParts) := acc in
  if already_present self requiredPart then (self, newParts)
  else
    let '(self', part) :=
      load_plugin self requiredPart requiredPart no_properties in
    (self', newParts ++ [part]).

(** The loop [while newParts]; [fuel] bounds the number of parts popped. *)
Fixpoint load_required (fuel : nat) (self : Config) (newParts : list ref)
    : result Config :=
  match newParts with
  | [] => Ret self
  | part :: newParts =>
    match fuel with
    | 0 => OutOfFuel
    | S fuel' =>
      let requires := config_get (heap self !!! part) "requires" in
      let '(self', newParts') := foldl require_part (self, newParts) requires in
      load_required fuel' self' newParts'
    end
  end.

(** The scan [for i in range(len(self.all_parts))] of edge attachment: the
    first part of [all_parts] that has the name [dep]. *)
Definition find_part (self : Config) (dep : string) : option ref :=
  find (λ p, bool_decide (dep ∈ names (heap self !!! p))) (all_parts self).

Definition set_deps (p : Part) (d : list ref) : Part :=
  {| name := name p; pluginName := pluginName p; properties := properties p;
     config := config p; deps := d; installdir := installdir p;
     env := env p |}.

(** [part.deps.append(found)], on the object at address [part]. *)
Definition deps_append (h : list Part) (part found : ref) : list Part :=
  alter (λ p, set_deps p (deps p ++ [found])) part h.

(** The body of [for dep in depNames]; a name that no part has ends the
    process with [sys.exit(1)]. *)
Definition attach_dep (part : ref) (self : Config) (dep : string)
    : result Config :=
  match find_part self dep with
  | Some found =>
    Ret {| heap := deps_append (heap self) part found;
           build_tools := build_tools self;
           all_parts := all_parts self |}
  | None => Raise (SystemExit 1)
  end.

(** [depNames] of a part: [requires] followed by the [after] list recorded
    under [part.names()[0]]. *)
Definition depNames (afterRequests : gmap string (list string)) (p : Part)
    : list string :=
  config_get p "requires"
  ++ default [] (afterRequests !! default EmptyString (names p !! 0)).

(** The body of [for part in self.all_parts] of edge attachment. *)
Definition attach_part (afterRequests : gmap string (list string))
    (self : Config) (part : ref) : result Config :=
  for_each (attach_dep part) (depNames afterRequests (heap self !!! part)) self.

Definition new_config (data : Yaml) : Config :=
  {| heap := []; build_tools := default [] (yaml_build_tools data);
     all_parts := [] |}.

(** The constructor up to the end of the loop [while newParts]: the parts
    declared in [data], then the parts they require; with [afterRequests]. *)
Definition load_parts (fuel : nat) (data : Yaml)
    : result (Config * gmap string (list string)) :=
  let '(self, afterRequests) :=
    foldl load_declared (new_config data, ∅) (default [] (yaml_parts data)) in
  self ← load_required fuel self (all_parts self);
  Ret (self, afterRequests).

(** The constructor up to the call of [_sort_parts]. *)
Definition build_graph (fuel : nat) (data : Yaml) : result Config :=
  '(self, afterRequests) ← load_parts fuel data;
  for_each (attach_part afterRequests) (all_parts self) self.

(** The constructor, on the mapping that [_snapcraft_yaml_load] returned
    and [_validate_snapcraft_yaml] accepted. *)
Definition __init__ (fuel : nat) (data : Yaml) : result Config :=
  self ← build_graph fuel data;
  sorted_parts ← _sort_parts (heap self) (all_parts self);
  Ret {| heap := heap self; build_tools := build_tools self;
         all_parts := sorted_parts |}.

(** The constructor on a document whose values are objects, in the same
    three stages; loading also gives the mappings as the loop leaves them. *)
Definition load_parts_shared (fuel : nat) (doc : Document)
    : result (Config * gmap string (list string) * list Properties) :=
  let '(self, afterRequests, mappings) :=
    foldl load_declared_shared
      ({| heap := []; build_tools := default [] (doc_build_tools doc);
          all_parts := [] |}, ∅, doc_mappings doc)
      (default [] (doc_parts doc)) in
  self ← load_required fuel self (all_parts self);
  Ret (self, afterRequests, mappings).

Definition build_graph_shared (fuel : nat) (doc : Document) : result Config :=
  '(self, afterRequests, _) ← load_parts_shared fuel doc;
  for_each (attach_part afterRequests) (all_parts self) self.

Definition init_shared (fuel : nat) (doc : Document) : result Config :=
  self ← build_graph_shared fuel doc;
  sorted_parts ← _sort_parts (heap self) (all_parts self);
  Ret {| heap := heap self; build_tools := build_tools self;
         all_parts := sorted_parts |}.

(** The part object that [load_declared] creates for an item of [parts]. *)
Definition declared_part (item : string * option Properties) : Part :=
  let properties := default no_properties item.2 in
  plugin_load_plugin item.1 (default item.1 (plugin properties))
    {| plugin := None; after := None; options := options properties |}.

(** The part object that [require_part] creates for a required name. *)
Definition required_part (requiredPart : string) : Part :=
  plugin_load_plugin requiredPart requiredPart no_properties.

(** ** Environments *)

Definition runtime_env (root : string) : list string :=
  [ format ("PATH=" +:+ dquote +:+ "{0}/bin:{0}/usr/bin:$PATH" +:+ dquote)
           [root];
    format ("LD_LIBRARY_PATH=" +:+ dquote
            +:+ "{0}/lib:{0}/usr/lib:{0}/lib/{1}:{0}/usr/lib/{1}:$LD_LIBRARY_PATH"
            +:+ dquote)
           [root; get_arch_triplet] ].

Definition build_env (root : string) : list string :=
  [ format ("CFLAGS=" +:+ dquote
            +:+ "-I{0}/include -I{0}/usr/include -I{0}/include/{1} -I{0}/usr/include/{1} $CFLAGS"
            +:+ dquote)
           [root; get_arch_triplet];
    format ("LDFLAGS=" +:+ dquote
            +:+ "-L{0}/lib -L{0}/usr/lib -L{0}/lib/{1} -L{0}/usr/lib/{1} $LDFLAGS"
            +:+ dquote)
           [root; get_arch_triplet] ].

(** The body of [for dep in part.deps] of [build_env_for_part], given the
    recursive call as [recurse].  The list under construction, [env] in
    the source, is [acc] here. *)
Definition build_env_for_dep (recurse : ref → result (list string))
    (h : list Part) (acc : list string) (dep : ref) : result (list string) :=
  let root := installdir (h !!! dep) in
  let acc := acc ++ runtime_env root in
  let acc := acc ++ build_env root in
  let acc := acc ++ env (h !!! dep) root in
  sub ← recurse dep;
  Ret (acc ++ sub).

(** [build_env_for_part]; [fuel] bounds the depth of the recursion. *)
Fixpoint build_env_for_part (fuel : nat) (h : list Part) (part : ref)
    : result (list string) :=
  match fuel with
  | 0 => OutOfFuel
  | S fuel' =>
    for_each (build_env_for_dep (build_env_for_part fuel' h) h)
             (deps_of h part) []
  end.

(** What [build_env_for_part] adds for a dependency before it descends into
    it: the runtime environment, the build environment and the part's own
    environment, all for the dependency's install directory. *)
Definition dep_env (h : list Part) (dep : ref) : list string :=
  let root := installdir (h !!! dep) in
  runtime_env root ++ build_env root ++ env (h !!! dep) root.


Definition stage_env (self : Config) : list string :=
  let root := get_stagedir in
  foldl (λ acc part, acc ++ env (heap self !!! part) root)
        (runtime_env root ++ build_env root) (all_parts self).

Definition snap_env (self : Config) : list string :=
  let root := get_snapdir in
  foldl (λ acc part, acc ++ env (heap self !!! part) root)
        (runtime_env root) (all_parts self).

End Collaborators.

(** ** The dependency relation of a set of parts *)

(** [P] depends on [D]: both are parts of the set and [D] is in [P.deps]. *)
Definition depends (h : list Part) (parts : list ref) (P D : ref) : Prop :=
  P ∈ parts ∧ D ∈ parts ∧ D ∈ deps_of h P.

(** A cycle: a part that reaches itself along one or more dependencies.
    A part that has itself in its [deps] is a cycle of length one. *)
Definition cyclic (h : list Part) (parts : list ref) : Prop :=
  ∃ r, tc (depends h parts) r r.

Definition acyclic (h : list Part) (parts : list ref) : Prop :=
  ∀ r, ¬ tc (depends h parts) r r.

(** Every dependency of a part of the set is a part of the set. *)
Definition deps_closed (h : list Part) (parts : list ref) : Prop :=
  ∀ P D, P ∈ parts → D ∈ deps_of h P → D ∈ parts.

(** [l.index(x)]: the position of the first occurrence. *)
Fixpoint index (x : ref) (l : list ref) : option nat :=
  match l with
  | [] => None
  | y :: l' => if decide (x = y) then Some 0 else S <$> index x l'
  end.

(** No part of the list has a part at its position or later in its [deps]. *)
Definition deps_before (h : list Part) (l : list ref) : Prop :=
  ∀ l1 z l2, l = l1 ++ z :: l2 → ∀ x, x ∈ z :: l2 → x ∉ deps_of h z.

(** The [afterRequests] dictionary at the end of the loop over the declared
    parts: the [after] list of each part that has one, under its name. *)
Definition after_requests (parts : list (string * option Properties))
    : gmap string (list string) :=
  foldl (λ afterRequests item,
           match after (default no_properties item.2) with
           | Some l => <[item.1 := l]> afterRequests
           | None => afterRequests
           end) ∅ parts.


(** The input with every [after] key taken out of the properties. *)
Definition without_after (data : Yaml) : Yaml :=
  {| yaml_build_tools := yaml_build_tools data;
     yaml_parts :=
       fmap (M:=list)
         (λ item : string * option Properties,
            (item.1,
             (λ properties,
                {| plugin := plugin properties; after := None;
                   options := options properties |}) <$> item.2))
       <$> yaml_parts data |}.


(** Is the mapping at address [r] the value of one of the first [i]
    entries of [parts]? *)
Definition read_before (entries : list (string * option ref)) (i : nat)
    (r : ref) : bool :=
  bool_decide (Some r ∈ (take i entries).*2).

(** The content of a value of [parts] when the loop reaches entry [i]: a
    mapping that an earlier entry holds too has lost its keys [plugin] and
    [after] by then. *)
Definition content_at (mappings : list Properties)
    (entries : list (string * option ref)) (i : nat) (r : ref) : Properties :=
  if read_before entries i r then strip_keys (mappings !!! r)
  else mappings !!! r.

(** The mappings when the loop has read the values [rs]: each mapping
    among them has lost its keys [plugin] and [after]. *)
Definition stripped (rs : list (option ref)) (mappings : list Properties)
    : list Properties :=
  imap (λ r properties,
          if bool_decide (Some r ∈ rs) then strip_keys properties
          else properties) mappings.

(** The entries of [parts] with the content that the loop reads. *)
Definition entries_read (mappings : list Properties)
    (entries : list (string * option ref))
    : list (string * option Properties) :=
  imap (λ i item, (item.1, content_at mappings entries i <$> item.2)) entries.

(** A document as the constructor reads it. *)
Definition as_read (doc : Document) : Yaml :=
  {| yaml_build_tools := doc_build_tools doc;
     yaml_parts := entries_read (doc_mappings doc) <$> doc_parts doc |}.

(** Before the sort, [all_parts] lists the objects in the order in which
    they were created. *)
Definition in_load_order (self : Config) : Prop :=
  all_parts self = seq 0 (length (heap self)).

(** [self.build_tools] while the parts are loaded: the list of the input
    followed by the [build-tools] of the parts created so far. *)
Definition tools_inv (base : list string) (self : Config) : Prop :=
  build_tools self = base ++ (heap self ≫= part_build_tools).

(** ** Example inputs *)

Module Example.

(** A plugin loader over a fixed set of plugins: what each one requires. *)
Definition requires_of (plugin_name : string) : list string :=
  if decide (plugin_name = "a") then ["b"]
  else if decide (plugin_name = "b") then ["c"]
  else if decide (plugin_name = "x") then ["y"]
  else if decide (plugin_name = "y") then ["x"]
  else if decide (plugin_name = "self") then ["self"]
  else if decide (plugin_name = "app") then ["foo"]
  else if decide (plugin_name = "top") then ["left"; "right"]
  else if decide (plugin_name = "left") then ["base"]
  else if decide (plugin_name = "right") then ["base"]
  else [].

Definition universe : list string :=
  ["b"; "c"; "x"; "y"; "self"; "foo"; "left"; "right"; "base"].

Definition loader (part_name plugin_name : string) (properties : Properties)
    : Plugin :=
  {| plugin_config := {[ "requires" := requires_of plugin_name ]};
     plugin_installdir := "/parts/" +:+ part_name +:+ "/install";
     plugin_env := λ root, ["SNAP_" +:+ part_name +:+ "=" +:+ root] |}.

Definition yaml (parts : list (string * option Properties)) : Yaml :=
  {| yaml_build_tools := None; yaml_parts := Some parts |}.

Definition with_after (l : list string) : option Properties :=
  Some {| plugin := None; after := Some l; options := ∅ |}.

(** [a] requires [b], which requires [c]. *)
Definition chain : Yaml := yaml [("a", None); ("b", None); ("c", None)].

(** [x] requires [y], which requires [x]. *)
Definition loop2 : Yaml := yaml [("x", None)].

(** [q] comes after itself. *)
Definition after_self : Yaml := yaml [("q", with_after ["q"])].

(** [a] requires [b] and also comes after [b]. *)
Definition twice : Yaml := yaml [("a", with_after ["b"])].

(** [app] requires [foo], which is not declared. *)
Definition app : Yaml := yaml [("app", None)].

(** [app] comes after [zzz], which nothing declares or requires. *)
Definition after_only : Yaml := yaml [("app", with_after ["zzz"])].

(** [top] requires [left] and [right], which both require [base]. *)
Definition diamond : Yaml := yaml [("top", None)].

(** [self] requires itself. *)
Definition requires_self : Yaml := yaml [("self", None)].


(** A loader whose plugins all need [make] on the host. *)
Definition tooled_loader (part_name plugin_name : string)
    (properties : Properties) : Plugin :=
  {| plugin_config :=
       {[ "requires" := requires_of plugin_name; "build-tools" := ["make"] ]};
     plugin_installdir := "/parts/" +:+ part_name +:+ "/install";
     plugin_env := λ root, ["SNAP_" +:+ part_name +:+ "=" +:+ root] |}.

(** The chain again, with [git] needed by the project itself. *)
Definition tooled_chain : Yaml :=
  {| yaml_build_tools := Some ["git"];
     yaml_parts := Some [("a", None); ("b", None); ("c", None)] |}.

(** An input without parts. *)
Definition no_parts : Yaml :=
  {| yaml_build_tools := Some ["git"]; yaml_parts := None |}.


(** [a] has the plugin [left] and comes after [c]; [b] is an alias of the
    mapping of [a]; [c] has no value. *)
Definition aliased : Document :=
  {| doc_build_tools := None;
     doc_parts := Some [("a", Some 0); ("b", Some 0); ("c", None)];
     doc_mappings :=
       [{| plugin := Some "left"; after := Some ["c"]; options := ∅ |}] |}.

Definition triplet : string := "x86_64-linux-gnu".

(** The state after edge attachment for an example input. *)
Definition graph_of (data : Yaml) : Config :=
  match build_graph loader 8 data with
  | Ret self => self
  | _ => new_config data
  end.

(** The state after loading for an example input. *)
Definition loaded_of (data : Yaml) : Config :=
  match load_parts loader 8 data with
  | Ret (self, _) => self
  | _ => new_config data
  end.

(** The state after loading for the example document. *)
Definition loaded_shared_of (doc : Document)
    : Config * gmap string (list string) * list Properties :=
  match load_parts_shared loader 8 doc with
  | Ret state => state
  | _ => ({| heap := []; build_tools := []; all_parts := [] |}, ∅, [])
  end.

(** The configuration constructed for an example input. *)
Definition config_of (data : Yaml) : Config :=
  match __init__ loader 8 data with
  | Ret self => self
  | _ => new_config data
  end.


End Example.

(** ** Facts about the scans of the sort *)

Lemma list_remove_first_perm x l :
  x ∈ l → l ≡ₚ x :: list_remove_first x l.
Proof.
  induction l as [|y l IH]; intros Hx; [by apply elem_of_nil in Hx|].
  simpl. destruct (decide (x = y)) as [->|Hne]; [done|].
  apply elem_of_cons in Hx as [?|Hx]; [done|].
  rewrite (IH Hx) at 1. apply Permutation_swap.
Qed.

Lemma list_remove_first_length x l :
  x ∈ l → S (length (list_remove_first x l)) = length l.
Proof.
  intros Hx. by rewrite (Permutation_length (list_remove_first_perm x l Hx)).
Qed.

Lemma list_remove_first_subseteq x l : list_remove_first x l ⊆ l.
Proof.
  induction l as [|y l IH]; simpl; [done|].
  destruct (decide (x = y)) as [_|_]; intros z Hz.
  - apply elem_of_cons. by right.
  - apply elem_of_cons. apply elem_of_cons in Hz as [->|Hz]; [by left|].
    right. by apply IH.
Qed.

Lemma mentioned_true h l x :
  mentioned h l x = true ↔ ∃ other, other ∈ l ∧ x ∈ deps_of h other.
Proof.
  unfold mentioned. rewrite existsb_exists. split.
  - intros (y & Hy & Hd). exists y. split; [by apply list_elem_of_In|].
    by apply bool_decide_eq_true in Hd.
  - intros (y & Hy & Hd). exists y. split; [by apply list_elem_of_In|].
    by apply bool_decide_eq_true.
Qed.

Lemma find_top_Some h l top :
  find_top h l = Some top →
  top ∈ l ∧ ∀ other, other ∈ l → top ∉ deps_of h other.
Proof.
  intros Hf. destruct (find_some _ _ Hf) as [Hin Hm].
  split; [by apply list_elem_of_In|].
  intros other Ho Hd. apply negb_true_iff in Hm.
  assert (mentioned h l top = true) as Ht by (apply mentioned_true; eauto).
  congruence.
Qed.

Lemma find_top_None h l x :
  find_top h l = None → x ∈ l → ∃ other, other ∈ l ∧ x ∈ deps_of h other.
Proof.
  intros Hf Hx. apply mentioned_true.
  pose proof (find_none _ _ Hf x) as Hn. simpl in Hn.
  apply negb_false_iff, Hn. by apply list_elem_of_In.
Qed.

(** One iteration of the loop of the sort: it raises, or it moves one
    part from the remaining list to the front of the sorted list. *)
Lemma sort_loop_step fuel h rem acc :
  rem ≠ [] →
  (find_top h rem = None ∧
   sort_loop (S fuel) h rem acc = Raise circular_dependency)
  ∨ (∃ top, find_top h rem = Some top ∧ top ∈ rem ∧
       S (length (list_remove_first top rem)) = length rem ∧
       sort_loop (S fuel) h rem acc
       = sort_loop fuel h (list_remove_first top rem) (top :: acc)).
Proof.
  intros Hne. destruct rem as [|p rem]; [done|].
  destruct (find_top h (p :: rem)) as [top|] eqn:Hf.
  - right. exists top. destruct (find_top_Some _ _ _ Hf) as [Hin _].
    split_and!; [done|done|by apply list_remove_first_length|].
    simpl sort_loop at 1. by rewrite Hf.
  - left. split; [done|]. simpl. by rewrite Hf.
Qed.

Lemma sort_loop_fuel fuel h rem acc :
  length rem ≤ fuel → sort_loop fuel h rem acc ≠ OutOfFuel.
Proof.
  revert rem acc. induction fuel as [|fuel IH]; intros rem acc Hlen.
  - destruct rem; [done|simpl in Hlen; lia].
  - destruct rem as [|p rem]; [done|].
    destruct (sort_loop_step fuel h (p :: rem) acc) as [[_ ->]|(top&_&_&Hl&->)];
      [done|done|].
    apply IH. lia.
Qed.

Lemma sort_loop_fuel_irrel fuel fuel' h rem acc :
  length rem ≤ fuel → length rem ≤ fuel' →
  sort_loop fuel h rem acc = sort_loop fuel' h rem acc.
Proof.
  revert fuel' rem acc. induction fuel as [|fuel IH]; intros fuel' rem acc H1 H2.
  - destruct rem; [by destruct fuel'|simpl in H1; lia].
  - destruct rem as [|p rem]; [by destruct fuel'|].
    destruct fuel' as [|fuel']; [simpl in H2; lia|].
    destruct (sort_loop_step fuel h (p :: rem) acc) as [[Hf ->]|(top&Hf&_&Hl&->)];
      [done| |].
    + simpl. by rewrite Hf.
    + simpl sort_loop at 2. rewrite Hf. simpl in *. apply IH; lia.
Qed.

Lemma sort_loop_perm fuel h rem acc res :
  sort_loop fuel h rem acc = Ret res → res ≡ₚ rem ++ acc.
Proof.
  revert rem acc. induction fuel as [|fuel IH]; intros rem acc Hs.
  - destruct rem; [|done]. simpl in Hs. by injection Hs as ->.
  - destruct rem as [|p rem]; [simpl in Hs; by injection Hs as ->|].
    destruct (sort_loop_step fuel h (p :: rem) acc) as [[_ Hr]|(top&_&Hin&_&Hr)];
      [done|congruence|].
    rewrite Hr in Hs. apply IH in Hs. rewrite Hs.
    rewrite (list_remove_first_perm top (p :: rem) Hin) at 2.
    simpl. by rewrite Permutation_middle.
Qed.

Lemma sort_loop_raise fuel h rem acc e :
  sort_loop fuel h rem acc = Raise e → e = circular_dependency.
Proof.
  revert rem acc. induction fuel as [|fuel IH]; intros rem acc Hs.
  - by destruct rem.
  - destruct rem as [|p rem]; [done|].
    destruct (sort_loop_step fuel h (p :: rem) acc) as [[_ Hr]|(top&_&_&_&Hr)];
      [done|congruence|].
    rewrite Hr in Hs. by apply IH in Hs.
Qed.

Lemma list_remove_first_other x y l :
  x ∈ l → x ≠ y → x ∈ list_remove_first y l.
Proof.
  induction l as [|z l IH]; simpl; [done|]. intros Hx Hne.
  apply elem_of_cons in Hx.
  destruct (decide (y = z)) as [->|_]; [by destruct Hx|].
  apply elem_of_cons. destruct Hx as [->|Hx]; [by left|right; by apply IH].
Qed.

(** ** Order of the sorted list *)

Lemma deps_before_nil h : deps_before h [].
Proof. intros l1 z l2 Heq. by destruct l1. Qed.

Lemma deps_before_cons h top acc :
  (∀ x, x ∈ top :: acc → x ∉ deps_of h top) →
  deps_before h acc → deps_before h (top :: acc).
Proof.
  intros Htop Hacc l1 z l2 Heq. destruct l1 as [|a l1]; simpl in Heq.
  - injection Heq as <- <-. done.
  - injection Heq as <- Heq. by apply (Hacc l1).
Qed.

Lemma sort_loop_order fuel h rem acc res :
  (∀ x z, x ∈ acc → z ∈ rem → x ∉ deps_of h z) →
  deps_before h acc →
  sort_loop fuel h rem acc = Ret res → deps_before h res.
Proof.
  revert rem acc. induction fuel as [|fuel IH]; intros rem acc H1 H2 Hs.
  - destruct rem; [|done]. simpl in Hs. by injection Hs as <-.
  - destruct rem as [|p rem]; [simpl in Hs; by injection Hs as <-|].
    destruct (sort_loop_step fuel h (p :: rem) acc) as [[_ Hr]|(top&Hf&Hin&_&Hr)];
      [done|congruence|].
    rewrite Hr in Hs. destruct (find_top_Some _ _ _ Hf) as [_ Htop].
    apply IH in Hs; [done| |].
    + intros x z Hx Hz. apply list_remove_first_subseteq in Hz.
      apply elem_of_cons in Hx as [->|Hx]; [by apply Htop|by apply H1].
    + apply deps_before_cons; [|done]. intros x Hx.
      apply elem_of_cons in Hx as [->|Hx]; [by apply Htop|by apply H1].
Qed.

Lemma index_lookup x l i : index x l = Some i → l !! i = Some x.
Proof.
  revert i. induction l as [|y l IH]; intros i; simpl; [done|].
  destruct (decide (x = y)) as [->|_]; [by intros [= <-]|].
  destruct (index x l) as [j|]; [|done]. intros [= <-]. by apply IH.
Qed.

Lemma index_first x l i j : index x l = Some i → j < i → l !! j ≠ Some x.
Proof.
  revert i j. induction l as [|y l IH]; intros i j; simpl; [done|].
  destruct (decide (x = y)) as [->|Hne]; [intros [= <-]; lia|].
  destruct (index x l) as [k|] eqn:Hk; [|done]. intros [= <-] Hj.
  destruct j as [|j]; simpl; [congruence|]. apply (IH k); [done|lia].
Qed.

Lemma index_is_Some x l : x ∈ l → is_Some (index x l).
Proof.
  induction l as [|y l IH]; simpl; [by intros ?%elem_of_nil|].
  intros Hx. destruct (decide (x = y)) as [->|Hne]; [by eexists|].
  apply elem_of_cons in Hx as [?|Hx]; [done|].
  destruct (IH Hx) as [i ->]. by eexists.
Qed.

Lemma deps_before_lookup h l i j P D :
  deps_before h l → l !! i = Some D → l !! j = Some P →
  D ∈ deps_of h P → i < j.
Proof.
  intros Hl Hi Hj HD. destruct (decide (i < j)) as [|Hge]; [done|].
  exfalso. apply (Hl (take j l) P (drop (S j) l)) with D; [|  |done].
  - by rewrite take_drop_middle.
  - rewrite <- (drop_S l P j Hj). apply list_elem_of_lookup.
    exists (i - j). rewrite lookup_drop. by replace (j + (i - j)) with i by lia.
Qed.

Lemma deps_before_index h l P D :
  deps_before h l → P ∈ l → D ∈ l → D ∈ deps_of h P →
  ∃ i j, index D l = Some i ∧ index P l = Some j ∧ i < j.
Proof.
  intros Hl HP HD Hdep.
  destruct (index_is_Some D l HD) as [i Hi].
  destruct (index_is_Some P l HP) as [j Hj].
  exists i, j. split_and!; [done|done|].
  eapply deps_before_lookup; eauto using index_lookup.
Qed.

(** ** Cycles *)

Lemma tc_last {A} (R : relation A) x z :
  tc R x z → ∃ y, rtc R x y ∧ R y z.
Proof.
  induction 1 as [x z HR|x y z HR _ (y' & Hy & HR')].
  - exists x. split; [apply rtc_refl|done].
  - exists y'. split; [by eapply rtc_l|done].
Qed.

(** Every part on a cycle through [r] is in the [deps] of a part on it. *)
Lemma cycle_pred h parts r x :
  tc (depends h parts) r r →
  rtc (depends h parts) r x → tc (depends h parts) x r →
  ∃ y, (rtc (depends h parts) r y ∧ tc (depends h parts) y r)
       ∧ depends h parts y x.
Proof.
  intros Hr Hrx Hxr.
  destruct (tc_last (depends h parts) r x) as (y & Hry & Hyx);
    [by eapply tc_rtc_r|].
  exists y. split_and!; [done| |done]. by eapply tc_l.
Qed.

Lemma sort_loop_cyclic fuel h parts rem acc r res :
  tc (depends h parts) r r →
  (∀ x, rtc (depends h parts) r x → tc (depends h parts) x r → x ∈ rem) →
  sort_loop fuel h rem acc ≠ Ret res.
Proof.
  intros Hr. revert rem acc.
  induction fuel as [|fuel IH]; intros rem acc Hrem Hs.
  - destruct rem; [|done].
    by apply (elem_of_nil r), Hrem; [apply rtc_refl|].
  - destruct rem as [|p rem];
      [by apply (elem_of_nil r), Hrem; [apply rtc_refl|]|].
    destruct (sort_loop_step fuel h (p :: rem) acc) as [[_ Hr']|(top&Hf&Hin&_&Hr')];
      [done|congruence|].
    rewrite Hr' in Hs. revert Hs. apply IH. intros x Hrx Hxr.
    apply list_remove_first_other; [by apply Hrem|]. intros ->.
    destruct (cycle_pred h parts r top Hr Hrx Hxr) as (y & [Hry Hyr] & Hdep).
    destruct (find_top_Some _ _ _ Hf) as [_ Htop].
    apply (Htop y); [by apply Hrem|]. by destruct Hdep as (_ & _ & ?).
Qed.

(** Walking from a part to a part that depends on it, in a set where every
    part has one, comes back to a part already seen. *)
Lemma walk_cyclic h parts rem :
  rem ⊆ parts →
  (∀ x, x ∈ rem → ∃ y, y ∈ rem ∧ x ∈ deps_of h y) →
  ∀ k visited x,
    NoDup visited → visited ⊆ rem → x ∈ rem →
    (∀ v, v ∈ visited → tc (depends h parts) x v) →
    length rem ≤ length visited + k →
    cyclic h parts.
Proof.
  intros Hsub Hpred k.
  induction k as [|k IH]; intros visited x Hnd Hvis Hx Hreach Hlen.
  all: destruct (decide (x ∈ visited)) as [Hin|Hnin];
    [by exists x; apply Hreach|].
  all: assert (length (x :: visited) ≤ length rem) as Hle.
  1,3: apply submseteq_length, NoDup_submseteq;
    [by apply NoDup_cons|]; intros v [->|Hv]%elem_of_cons; [done|by apply Hvis].
  - simpl in Hle. lia.
  - destruct (Hpred x Hx) as (y & Hy & Hdep).
    assert (depends h parts y x) as HR by (split_and!; [apply Hsub..|]; done).
    apply (IH (x :: visited) y).
    + by apply NoDup_cons.
    + intros v [->|Hv]%elem_of_cons; [done|by apply Hvis].
    + done.
    + intros v [->|Hv]%elem_of_cons; [by apply tc_once|].
      eapply tc_l; [done|]. by apply Hreach.
    + simpl. lia.
Qed.

Lemma find_top_None_cyclic h parts rem :
  rem ⊆ parts → rem ≠ [] → find_top h rem = None → cyclic h parts.
Proof.
  intros Hsub Hne Hf. destruct rem as [|x rem]; [done|].
  apply (walk_cyclic h parts (x :: rem) Hsub) with (length (x :: rem)) [] x.
  - intros y Hy. by apply find_top_None.
  - apply NoDup_nil_2.
  - by intros ? ?%elem_of_nil.
  - apply elem_of_cons. by left.
  - by intros ? ?%elem_of_nil.
  - simpl. lia.
Qed.

Lemma sort_loop_acyclic fuel h parts rem acc :
  acyclic h parts → rem ⊆ parts → length rem ≤ fuel →
  ∃ res, sort_loop fuel h rem acc = Ret res.
Proof.
  intros Hac. revert rem acc.
  induction fuel as [|fuel IH]; intros rem acc Hsub Hlen.
  - destruct rem; [by eexists|simpl in Hlen; lia].
  - destruct rem as [|p rem]; [by eexists|].
    destruct (sort_loop_step fuel h (p :: rem) acc) as [[Hf _]|(top&_&_&Hl&->)];
      [done| |].
    + destruct (find_top_None_cyclic h parts (p :: rem)) as [r Hr]; [done..|].
      by destruct (Hac r).
    + apply IH; [|simpl in *; lia].
      intros x Hx. by apply Hsub, (list_remove_first_subseteq top).
Qed.

(** ** Loading the parts *)

Section Graph.

Context (snapcraft_plugin : string → string → Properties → Plugin).

Local Abbreviation load_plugin := (load_plugin snapcraft_plugin).
Local Abbreviation load_declared := (load_declared snapcraft_plugin).
Local Abbreviation declared_part := (declared_part snapcraft_plugin).
Local Abbreviation required_part := (required_part snapcraft_plugin).
Local Abbreviation require_part := (require_part snapcraft_plugin).
Local Abbreviation load_required := (load_required snapcraft_plugin).
Local Abbreviation load_parts := (load_parts snapcraft_plugin).
Local Abbreviation build_graph := (build_graph snapcraft_plugin).
Local Abbreviation __init__ := (__init__ snapcraft_plugin).
Local Abbreviation load_declared_shared :=
  (load_declared_shared snapcraft_plugin).
Local Abbreviation load_parts_shared := (load_parts_shared snapcraft_plugin).
Local Abbreviation build_graph_shared := (build_graph_shared snapcraft_plugin).
Local Abbreviation init_shared := (init_shared snapcraft_plugin).

Implicit Types (self : Config) (h : list Part) (n : string).

Lemma in_load_order_elem self p :
  in_load_order self → p ∈ all_parts self ↔ p < length (heap self).
Proof. intros ->. rewrite elem_of_seq. lia. Qed.

Lemma load_plugin_heap self pn pl props :
  heap (load_plugin self pn pl props).1
  = heap self ++ [plugin_load_plugin snapcraft_plugin pn pl props].
Proof. done. Qed.

Lemma load_plugin_order self pn pl props :
  in_load_order self → in_load_order (load_plugin self pn pl props).1.
Proof.
  unfold in_load_order. simpl. intros ->.
  by rewrite length_app, Nat.add_1_r, seq_S.
Qed.

Lemma load_declared_spec parts self afterRequests self' afterRequests' :
  in_load_order self →
  foldl load_declared (self, afterRequests) parts = (self', afterRequests') →
  in_load_order self' ∧ heap self' = heap self ++ (declared_part <$> parts).
Proof.
  revert self afterRequests.
  induction parts as [|[pn entry] parts IH]; intros self aR Hwf Hf; simpl in Hf.
  - injection Hf as <- <-. by rewrite app_nil_r.
  - apply IH in Hf as [Hwf' ->]; [|by apply load_plugin_order].
    split; [done|]. simpl. by rewrite <- app_assoc.
Qed.

Lemma already_present_true self n :
  in_load_order self →
  already_present self n = true ↔ n ∈ name <$> heap self.
Proof.
  intros Hwf. unfold already_present. rewrite existsb_exists. split.
  - intros (p & Hp & Hn). apply list_elem_of_In in Hp.
    apply bool_decide_eq_true in Hn. apply list_elem_of_singleton in Hn as ->.
    apply list_elem_of_fmap_2, list_elem_of_lookup_total_2.
    by apply in_load_order_elem.
  - intros (x & -> & Hx)%list_elem_of_fmap.
    apply list_elem_of_lookup_total_1 in Hx as (p & Hp & <-).
    exists p. split; [by apply list_elem_of_In, in_load_order_elem|].
    apply bool_decide_eq_true, list_elem_of_singleton. done.
Qed.

Lemma required_part_name n : name (required_part n) = n.
Proof. done. Qed.

Lemma name_required_parts (l : list string) :
  name <$> (required_part <$> l) = l.
Proof. induction l as [|n l IH]; [done|]. rewrite !fmap_cons. by rewrite IH. Qed.

(** The loop over the [requires] of one part: it creates one part for
    each name that no part has yet, and afterwards every name has one. *)
Lemma require_parts_spec requires self newParts self' newParts' :
  in_load_order self →
  foldl require_part (self, newParts) requires = (self', newParts') →
  ∃ new,
    heap self' = heap self ++ (required_part <$> new) ∧
    in_load_order self' ∧
    newParts' = newParts ++ seq (length (heap self)) (length new) ∧
    NoDup new ∧
    (∀ n, n ∈ new → n ∈ requires ∧ n ∉ name <$> heap self) ∧
    (∀ n, n ∈ requires → n ∈ name <$> heap self').
Proof.
  revert self newParts.
  induction requires as [|n requires IH]; intros self newParts Hwf Hf.
  - simpl in Hf. injection Hf as <- <-. exists [].
    rewrite !app_nil_r. split_and!; try done; [apply NoDup_nil_2| |];
      by intros ? ?%elem_of_nil.
  - simpl in Hf. destruct (already_present self n) eqn:Hp.
    + destruct (IH _ _ Hwf Hf) as (new & Hh & Hwf' & Hn & Hnd & Hnew & Hall).
      exists new. split_and!; try done.
      * intros m Hm. destruct (Hnew m Hm). split; [|done].
        apply elem_of_cons. by right.
      * intros m [->|Hm]%elem_of_cons; [|by apply Hall].
        rewrite Hh, fmap_app. apply elem_of_app. left.
        by apply already_present_true.
    + assert (n ∉ name <$> heap self) as Hfresh.
      { intros Hin%already_present_true; [congruence|done]. }
      apply IH in Hf as (new & Hh & Hwf' & Hn & Hnd & Hnew & Hall);
        [|by apply load_plugin_order].
      cbn [heap] in Hh, Hn, Hnew.
      change (plugin_load_plugin snapcraft_plugin n n no_properties)
        with (required_part n) in *.
      assert (n ∈ name <$> heap self ++ [required_part n]) as Hnin.
      { rewrite fmap_app. apply elem_of_app. right.
        apply list_elem_of_singleton. done. }
      exists (n :: new). split_and!.
      * rewrite Hh. simpl. by rewrite <- app_assoc.
      * done.
      * rewrite Hn, length_app, Nat.add_1_r. simpl. by rewrite <- app_assoc.
      * apply NoDup_cons. split; [|done]. intros Hin.
        by destruct (Hnew n Hin) as [_ []].
      * intros m [->|Hm]%elem_of_cons.
        { split; [apply elem_of_cons; by left|done]. }
        destruct (Hnew m Hm) as [Hreq Hnot]. split.
        { apply elem_of_cons. by right. }
        intros Hin. apply Hnot. rewrite fmap_app. apply elem_of_app. by left.
      * intros m [->|Hm]%elem_of_cons; [|by apply Hall].
        rewrite Hh, fmap_app. apply elem_of_app. by left.
Qed.

(** The loop [while newParts], started when the parts before address [k]
    have been popped: the parts it creates have new, distinct names, each
    required by a part, and in the end every required name has a part. *)
Lemma load_required_spec fuel self k self' :
  in_load_order self →
  (∀ i x n, i < k → heap self !! i = Some x →
            n ∈ config_get x "requires" → n ∈ name <$> heap self) →
  load_required fuel self (seq k (length (heap self) - k)) = Ret self' →
  ∃ new,
    heap self' = heap self ++ (required_part <$> new) ∧
    in_load_order self' ∧
    NoDup new ∧
    (∀ n, n ∈ new → (n ∉ name <$> heap self) ∧
                     ∃ x, x ∈ heap self' ∧ n ∈ config_get x "requires") ∧
    (∀ x n, x ∈ heap self' → n ∈ config_get x "requires" →
            n ∈ name <$> heap self').
Proof.
  assert (∀ self k self', in_load_order self →
    (∀ i x n, i < k → heap self !! i = Some x →
              n ∈ config_get x "requires" → n ∈ name <$> heap self) →
    length (heap self) - k = 0 → Ret self = Ret self' →
    ∃ new,
      heap self' = heap self ++ (required_part <$> new) ∧
      in_load_order self' ∧ NoDup new ∧
      (∀ n, n ∈ new → (n ∉ name <$> heap self) ∧
                       ∃ x, x ∈ heap self' ∧ n ∈ config_get x "requires") ∧
      (∀ x n, x ∈ heap self' → n ∈ config_get x "requires" →
              n ∈ name <$> heap self')) as Hbase.
  { clear. intros self k self' Hwf Hdone Hm [= <-]. exists [].
    rewrite app_nil_r.
    split_and!; try done; [apply NoDup_nil_2|by intros ? ?%elem_of_nil|].
    intros x n (i & Hi)%list_elem_of_lookup Hn.
    apply (Hdone i x n); [apply lookup_lt_Some in Hi; lia|done..]. }
  revert self k. induction fuel as [|fuel IH]; intros self k Hwf Hdone Hl.
  all: destruct (length (heap self) - k) as [|m] eqn:Hm; simpl in Hl.
  1,3: by eapply Hbase.
  1: done.
  destruct (foldl require_part (self, seq (S k) m) _)
    as [self1 newParts1] eqn:Hfold.
  apply require_parts_spec in Hfold
    as (new1 & Hh1 & Hwf1 & Hn1 & Hnd1 & Hnew1 & Hall1); [|done].
  assert (k < length (heap self)) as Hk by lia.
  destruct (lookup_lt_is_Some_2 (heap self) k Hk) as [pk Hpk].
  rewrite (list_lookup_total_correct _ _ _ Hpk) in Hnew1, Hall1.
  assert (newParts1 = seq (S k) (length (heap self1) - S k)) as Hnp.
  { rewrite Hn1, Hh1, length_app, length_fmap.
    replace (length (heap self) + length new1 - S k) with (m + length new1)
      by lia.
    rewrite seq_app. do 2 f_equal. lia. }
  rewrite Hnp in Hl. apply IH in Hl as (new2 & Hh2 & Hwf2 & Hnd2 & Hnew2 & Hall2);
    [|done|].
  - exists (new1 ++ new2). split_and!.
    + by rewrite Hh2, Hh1, fmap_app, app_assoc.
    + done.
    + apply NoDup_app. split_and!; [done| |done].
      intros n Hn1' Hn2'. destruct (Hnew2 n Hn2') as [Hnot _]. apply Hnot.
      rewrite Hh1, fmap_app, name_required_parts. apply elem_of_app. by right.
    + intros n [Hn|Hn]%elem_of_app.
      * destruct (Hnew1 n Hn) as [Hreq Hnot]. split; [done|].
        exists pk. split; [|done]. rewrite Hh2, Hh1.
        apply elem_of_app. left. apply elem_of_app. left.
        by eapply list_elem_of_lookup_2.
      * destruct (Hnew2 n Hn) as [Hnot Hex]. split; [|done].
        intros Hin. apply Hnot. rewrite Hh1, fmap_app. apply elem_of_app. by left.
    + done.
  - intros i x n Hi Hx Hn.
    assert (heap self !! i = Some x) as Hx'.
    { rewrite Hh1, lookup_app_l in Hx; [done|lia]. }
    destruct (decide (i = k)) as [->|Hne].
    + apply Hall1. congruence.
    + rewrite Hh1, fmap_app. apply elem_of_app. left.
      apply (Hdone i x n); [lia|done..].
Qed.

(** The loop [while newParts] ends when the names that parts can require
    are drawn from a finite list [U]: a new part takes a name of [U] that
    no part has yet. *)
Lemma load_required_terminates (U : list string) fuel self k seen :
  in_load_order self →
  (∀ n, config_get (required_part n) "requires" ⊆ U) →
  (∀ x, x ∈ heap self → config_get x "requires" ⊆ U) →
  NoDup seen → seen ⊆ U → seen ⊆ name <$> heap self →
  (length (heap self) - k) + (length U - length seen) ≤ fuel →
  ∃ self', load_required fuel self (seq k (length (heap self) - k)) = Ret self'.
Proof.
  intros Hwf HU. revert self k seen Hwf.
  induction fuel as [|fuel IH]; intros self k seen Hwf Hreq Hnd HsU Hsn Hfuel.
  all: destruct (length (heap self) - k) as [|m] eqn:Hm; simpl.
  1,3: by eexists.
  1: lia.
  destruct (foldl require_part (self, seq (S k) m) _)
    as [self1 newParts1] eqn:Hfold.
  apply require_parts_spec in Hfold
    as (new1 & Hh1 & Hwf1 & Hn1 & Hnd1 & Hnew1 & Hall1); [|done].
  assert (k < length (heap self)) as Hk by lia.
  destruct (lookup_lt_is_Some_2 (heap self) k Hk) as [pk Hpk].
  rewrite (list_lookup_total_correct _ _ _ Hpk) in Hnew1.
  assert (newParts1 = seq (S k) (length (heap self1) - S k)) as ->.
  { rewrite Hn1, Hh1, length_app, length_fmap.
    replace (length (heap self) + length new1 - S k) with (m + length new1)
      by lia.
    rewrite seq_app. do 2 f_equal. lia. }
  assert (NoDup (seen ++ new1)) as Hnd'.
  { apply NoDup_app. split_and!; [done| |done].
    intros n Hs Hn. destruct (Hnew1 n Hn) as [_ Hnot]. by apply Hnot, Hsn. }
  assert (seen ++ new1 ⊆ U) as HsU'.
  { intros n [Hn|Hn]%elem_of_app; [by apply HsU|].
    destruct (Hnew1 n Hn) as [Hr _]. apply (Hreq pk); [|done].
    by eapply list_elem_of_lookup_2. }
  assert (length (seen ++ new1) ≤ length U) as Hlen.
  { by apply submseteq_length, NoDup_submseteq. }
  rewrite length_app in Hlen.
  apply (IH self1 (S k) (seen ++ new1)); try done.
  - intros x. rewrite Hh1.
    intros [Hx|(n & -> & _)%list_elem_of_fmap]%elem_of_app; [by apply Hreq|].
    apply HU.
  - intros n Hn. rewrite Hh1, fmap_app, name_required_parts.
    apply elem_of_app. apply elem_of_app in Hn as [Hn|Hn]; [left|by right].
    by apply Hsn.
  - rewrite Hh1, !length_app, length_fmap. lia.
Qed.

Lemma load_required_fuel_mono fuel fuel' self newParts self' :
  load_required fuel self newParts = Ret self' → fuel ≤ fuel' →
  load_required fuel' self newParts = Ret self'.
Proof.
  revert fuel' self newParts.
  induction fuel as [|fuel IH]; intros fuel' self newParts Hl Hle.
  - destruct newParts; [|done]. by destruct fuel'.
  - destruct newParts as [|part newParts]; [by destruct fuel'|].
    destruct fuel' as [|fuel']; [lia|]. simpl in *.
    destruct (foldl require_part _ _) as [self1 newParts1].
    apply IH; [done|lia].
Qed.

(** ** Edge attachment *)

Lemma for_each_cases {A S : Type} (body : S → A → result S) e l s :
  (∀ s x, (∃ s', body s x = Ret s') ∨ body s x = Raise e) →
  (∃ s', for_each body l s = Ret s') ∨ for_each body l s = Raise e.
Proof.
  intros Hbody. revert s. induction l as [|x l IH]; intros s; simpl.
  - left. by eexists.
  - destruct (Hbody s x) as [[s' ->]| ->]; simpl; [apply IH|by right].
Qed.

Lemma find_ext {A} (f g : A → bool) (l : list A) :
  (∀ x, f x = g x) → find f l = find g l.
Proof.
  intros Hfg. induction l as [|x l IH]; simpl; [done|].
  by rewrite Hfg, IH.
Qed.

(** The part found for a name depends on the names of the parts only. *)
Lemma find_part_ext self self' dep :
  all_parts self' = all_parts self →
  (∀ p, name (heap self' !!! p) = name (heap self !!! p)) →
  find_part self' dep = find_part self dep.
Proof.
  intros Hall Hname. unfold find_part. rewrite Hall.
  apply find_ext. intros p. unfold names. by rewrite Hname.
Qed.

Lemma attach_dep_cases part self dep :
  (∃ self', attach_dep part self dep = Ret self')
  ∨ attach_dep part self dep = Raise (SystemExit 1).
Proof.
  unfold attach_dep. destruct (find_part self dep); [left; by eexists|by right].
Qed.

Lemma deps_append_lookup h part found j :
  part < length h →
  deps_append h part found !!! j
  = if decide (part = j) then set_deps (h !!! j) (deps (h !!! j) ++ [found])
    else h !!! j.
Proof.
  intros Hlt. unfold deps_append. rewrite list_lookup_total_alter.
  destruct (decide (part = j)) as [->|Hne].
  - by rewrite decide_True.
  - rewrite decide_False; [done|]. by intros [? _].
Qed.

Lemma deps_append_name h part found j :
  name (deps_append h part found !!! j) = name (h !!! j).
Proof.
  unfold deps_append. rewrite list_lookup_total_alter. by case_decide as H; [destruct H as [-> _]|].
Qed.

(** The loop [for dep in depNames] for one part: each name is resolved to
    the first part that has it, and the references are appended to the
    part's [deps] in the order of the names, none left out. *)
Lemma attach_deps_spec part depnames self self' :
  part < length (heap self) →
  for_each (attach_dep part) depnames self = Ret self' →
  ∃ found,
    Forall2 (λ dep r, find_part self dep = Some r) depnames found ∧
    heap self' !!! part
    = set_deps (heap self !!! part) (deps (heap self !!! part) ++ found) ∧
    (∀ j, j ≠ part → heap self' !!! j = heap self !!! j) ∧
    length (heap self') = length (heap self) ∧
    all_parts self' = all_parts self ∧
    build_tools self' = build_tools self.
Proof.
  revert self. induction depnames as [|dep depnames IH]; intros self Hlt Hf.
  - simpl in Hf. injection Hf as <-. exists []. rewrite app_nil_r.
    split_and!; try done. by destruct (heap self !!! part).
  - simpl in Hf.
    destruct (attach_dep part self dep) as [self1| |] eqn:Hd; [|done..].
    simpl in Hf. unfold attach_dep in Hd.
    destruct (find_part self dep) as [r|] eqn:Hr; [|done].
    injection Hd as <-.
    apply IH in Hf as (found & HF & Hp & Hj & Hlen & Hall & Hbt);
      [|by unfold deps_append; simpl; rewrite length_alter].
    cbn [heap all_parts build_tools] in *.
    exists (r :: found). split_and!.
    + apply Forall2_cons. split; [done|].
      eapply Forall2_impl; [done|]. intros d r' <-. symmetry.
      apply find_part_ext; [done|]. intros p. apply deps_append_name.
    + rewrite Hp, deps_append_lookup, decide_True by done.
      unfold set_deps. simpl. by rewrite <- app_assoc.
    + intros j Hne. rewrite Hj, deps_append_lookup by done.
      by rewrite decide_False.
    + by rewrite Hlen; unfold deps_append; rewrite length_alter.
    + done.
    + done.
Qed.

(** The loop [for part in self.all_parts] of edge attachment. *)
Lemma attach_parts_spec afterRequests ps self self' :
  NoDup ps → (∀ p, p ∈ ps → p < length (heap self)) →
  for_each (attach_part afterRequests) ps self = Ret self' →
  length (heap self') = length (heap self) ∧
  all_parts self' = all_parts self ∧
  build_tools self' = build_tools self ∧
  (∀ j, j ∉ ps → heap self' !!! j = heap self !!! j) ∧
  (∀ p, p ∈ ps → ∃ found,
     Forall2 (λ dep r, find_part self dep = Some r)
             (depNames afterRequests (heap self !!! p)) found ∧
     heap self' !!! p
     = set_deps (heap self !!! p) (deps (heap self !!! p) ++ found)).
Proof.
  revert self. induction ps as [|p ps IH]; intros self Hnd Hlt Hf.
  - simpl in Hf. injection Hf as <-. split_and!; try done.
    by intros p ?%elem_of_nil.
  - simpl in Hf.
    destruct (attach_part afterRequests self p) as [self1| |] eqn:Hp; [|done..].
    simpl in Hf. apply NoDup_cons in Hnd as [Hnin Hnd].
    apply attach_deps_spec in Hp
      as (found & HF & Hpp & Hj & Hlen & Hall & Hbt);
      [|apply Hlt, elem_of_cons; by left].
    apply IH in Hf as (Hlen' & Hall' & Hbt' & Hj' & Hps); [|done|].
    2:{ intros q Hq. rewrite Hlen. apply Hlt, elem_of_cons. by right. }
    assert (∀ i, name (heap self1 !!! i) = name (heap self !!! i)) as Hname.
    { intros i. destruct (decide (i = p)) as [->|Hne]; [by rewrite Hpp|].
      by rewrite Hj. }
    split_and!; [congruence..| |].
    + intros j Hnj. rewrite Hj'; [apply Hj|]; intros ?;
        apply Hnj, elem_of_cons; auto.
    + intros q [->|Hq]%elem_of_cons.
      * exists found. split; [done|]. by rewrite Hj'.
      * destruct (Hps q Hq) as (found' & HF' & Hq').
        assert (q ≠ p) as Hne by (by intros ->).
        rewrite (Hj q Hne) in HF', Hq'. exists found'. split; [|done].
        eapply Forall2_impl; [done|]. intros d r <-. symmetry.
        by apply find_part_ext.
Qed.

Lemma find_part_Some self dep r :
  find_part self dep = Some r →
  r ∈ all_parts self ∧ name (heap self !!! r) = dep.
Proof.
  intros Hf. destruct (find_some _ _ Hf) as [Hin Hn].
  split; [by apply list_elem_of_In|].
  apply bool_decide_eq_true, list_elem_of_singleton in Hn. done.
Qed.

Lemma find_part_None self dep :
  in_load_order self → find_part self dep = None → dep ∉ name <$> heap self.
Proof.
  intros Hwf Hf (x & -> & Hx)%list_elem_of_fmap.
  apply list_elem_of_lookup_total_1 in Hx as (p & Hp & <-).
  pose proof (find_none _ _ Hf p) as Hn. simpl in Hn.
  apply in_load_order_elem, list_elem_of_In, Hn, bool_decide_eq_false in Hp;
    [|done].
  apply Hp, list_elem_of_singleton. done.
Qed.

Lemma find_part_is_Some self dep :
  in_load_order self → dep ∈ name <$> heap self → is_Some (find_part self dep).
Proof.
  intros Hwf Hin. destruct (find_part self dep) eqn:Hf; [by eexists|].
  by apply find_part_None in Hf.
Qed.

(** ** The whole of graph construction *)

Lemma load_declared_after parts self afterRequests :
  (foldl load_declared (self, afterRequests) parts).2
  = foldl (λ afterRequests item,
             match after (default no_properties item.2) with
             | Some l => <[item.1 := l]> afterRequests
             | None => afterRequests
             end) afterRequests parts.
Proof.
  revert self afterRequests.
  induction parts as [|[pn entry] parts IH]; intros self aR; [done|].
  simpl. by rewrite IH.
Qed.

Lemma load_parts_after fuel data self afterRequests :
  load_parts fuel data = Ret (self, afterRequests) →
  afterRequests = after_requests (default [] (yaml_parts data)).
Proof.
  unfold load_parts, after_requests.
  rewrite <- (load_declared_after _ (new_config data)).
  destruct (foldl load_declared _ _) as [self0 aR].
  destruct (load_required _ _ _); simpl; [|done..]. by intros [= _ <-].
Qed.

(** The state when the loop [while newParts] has ended: the declared
    parts, then one part for each required name that had none. *)
Lemma load_parts_spec fuel data self afterRequests :
  load_parts fuel data = Ret (self, afterRequests) →
  ∃ new,
    heap self = (declared_part <$> default [] (yaml_parts data))
                ++ (required_part <$> new) ∧
    in_load_order self ∧
    NoDup new ∧
    (∀ n, n ∈ new → (n ∉ (default [] (yaml_parts data)).*1) ∧
                     ∃ x, x ∈ heap self ∧ n ∈ config_get x "requires") ∧
    (∀ x n, x ∈ heap self → n ∈ config_get x "requires" →
            n ∈ name <$> heap self).
Proof.
  unfold load_parts.
  destruct (foldl load_declared _ _) as [self0 aR] eqn:Hdecl.
  apply load_declared_spec in Hdecl as [Hwf0 Hh0]; [|done].
  simpl in Hh0.
  destruct (load_required _ _ _) as [self1| |] eqn:Hreq; simpl; [|done..].
  intros [= <- <-].
  rewrite Hwf0 in Hreq.
  rewrite <- (Nat.sub_0_r (length (heap self0))) in Hreq.
  apply load_required_spec in Hreq as (new & Hh & Hwf & Hnd & Hnew & Hall);
    [|done|intros; lia].
  exists new. split_and!.
  - by rewrite Hh, Hh0.
  - done.
  - done.
  - intros n Hn. destruct (Hnew n Hn) as [Hnot Hex]. split; [|done].
    intros Hin. apply Hnot. rewrite Hh0, <- list_fmap_compose.
    apply list_elem_of_fmap in Hin as ([pn e] & -> & Hin).
    by apply (list_elem_of_fmap_2' _ _ (pn, e)).
  - done.
Qed.

Lemma load_parts_deps fuel data self afterRequests x :
  load_parts fuel data = Ret (self, afterRequests) →
  x ∈ heap self → deps x = [].
Proof.
  intros (new & -> & _)%load_parts_spec.
  by intros [(? & -> & _)%list_elem_of_fmap
            |(? & -> & _)%list_elem_of_fmap]%elem_of_app.
Qed.

Lemma depNames_set_deps afterRequests p d :
  depNames afterRequests (set_deps p d) = depNames afterRequests p.
Proof. done. Qed.

(** The state when edge attachment has ended: the parts are those that
    were loaded, and the [deps] of each is the list of the parts found for
    its [depNames], in the order of the names. *)
Lemma build_graph_spec fuel data self :
  build_graph fuel data = Ret self →
  ∃ self0,
    load_parts fuel data
    = Ret (self0, after_requests (default [] (yaml_parts data))) ∧
    in_load_order self ∧
    all_parts self = all_parts self0 ∧
    length (heap self) = length (heap self0) ∧
    build_tools self = build_tools self0 ∧
    ∀ r, r ∈ all_parts self →
      heap self !!! r = set_deps (heap self0 !!! r) (deps (heap self !!! r)) ∧
      Forall2 (λ dep found, find_part self dep = Some found)
        (depNames (after_requests (default [] (yaml_parts data)))
                  (heap self !!! r))
        (deps (heap self !!! r)).
Proof.
  unfold build_graph.
  destruct (load_parts fuel data) as [[self0 aR]| |] eqn:Hload; simpl; [|done..].
  intros Hf. pose proof (load_parts_after _ _ _ _ Hload) as ->.
  destruct (load_parts_spec _ _ _ _ Hload) as (new & _ & Hwf & _).
  apply attach_parts_spec in Hf as (Hlen & Hall & Hbt & _ & Hps).
  2:{ rewrite Hwf. apply NoDup_seq. }
  2:{ intros p. by apply in_load_order_elem. }
  assert (∀ p, name (heap self !!! p) = name (heap self0 !!! p)) as Hname.
  { intros p. destruct (decide (p ∈ all_parts self0)) as [Hp|Hp].
    - destruct (Hps p Hp) as (found & _ & ->). done.
    - rewrite !list_lookup_total_alt, !lookup_ge_None_2; [done|..].
      + rewrite in_load_order_elem in Hp by done. lia.
      + rewrite in_load_order_elem in Hp by done. lia. }
  exists self0. split_and!; try done.
  - unfold in_load_order. by rewrite Hall, Hlen.
  - intros r Hr. rewrite Hall in Hr.
    destruct (Hps r Hr) as (found & HF & Hr').
    rewrite (load_parts_deps _ _ _ _ (heap self0 !!! r) Hload) in Hr'.
    2:{ apply list_elem_of_lookup_total_2. by apply in_load_order_elem. }
    simpl in Hr'. rewrite Hr'. cbn [deps set_deps].
    split; [done|]. rewrite depNames_set_deps.
    eapply Forall2_impl; [done|]. intros d f <-. by apply find_part_ext.
Qed.

(** Every reference in a [deps] list is a part of [all_parts]. *)
Lemma build_graph_closed fuel data self :
  build_graph fuel data = Ret self → deps_closed (heap self) (all_parts self).
Proof.
  intros (self0 & _ & _ & _ & _ & _ & Hr)%build_graph_spec P D HP HD.
  destruct (Hr P HP) as [_ HF]. unfold deps_of in HD.
  apply list_elem_of_lookup in HD as [i Hi].
  destruct (Forall2_lookup_r _ _ _ _ _ HF Hi) as (dep & _ & Hfound).
  by apply find_part_Some in Hfound as [? _].
Qed.

(** ** The sort: order, cycles, termination, permutation *)

Lemma depends_tc_elem h parts x y :
  tc (depends h parts) x y → x ∈ parts ∧ y ∈ parts.
Proof.
  induction 1 as [x y (Hx & Hy & _)|x y z (Hx & _ & _) _ [_ Hz]]; by split.
Qed.

(** A part that has itself in its [deps] is a cycle of length one. *)
Lemma self_dependency_cyclic h parts r :
  r ∈ parts → r ∈ deps_of h r → cyclic h parts.
Proof. intros Hr Hd. exists r. by apply tc_once. Qed.

(** Two parts that have each other in their [deps] are a cycle. *)
Lemma mutual_dependency_cyclic h parts r s :
  r ∈ parts → s ∈ parts → s ∈ deps_of h r → r ∈ deps_of h s →
  cyclic h parts.
Proof.
  intros Hr Hs Hrs Hsr. exists r.
  eapply tc_l; [|apply tc_once]; by split_and!.
Qed.

(** A graph in which every dependency has a smaller rank has no cycle. *)
Lemma ranked_acyclic h parts (rank : ref → nat) :
  (∀ P D, depends h parts P D → rank D < rank P) → acyclic h parts.
Proof.
  intros Hrank.
  assert (∀ x y, tc (depends h parts) x y → rank y < rank x) as Htc.
  { induction 1 as [x y HR|x y z HR _ IH]; [by apply Hrank|].
    apply Hrank in HR. lia. }
  intros r Hr%Htc. lia.
Qed.

(** C1. For every acyclic dependency graph of parts, the sort returns a
    list that holds the parts of the graph, all of them and nothing else,
    and in which every dependency comes strictly before each of its
    dependents: for every part [P] and every [D] in [P.deps], the index of
    [D] in the result is less than the index of [P]. *)
Theorem sort_parts_dependencies_first h parts :
  acyclic h parts → deps_closed h parts →
  ∃ sorted,
    _sort_parts h parts = Ret sorted ∧
    sorted ≡ₚ parts ∧
    (∀ P, P ∈ sorted ↔ P ∈ parts) ∧
    ∀ P D, P ∈ parts → D ∈ deps_of h P →
      ∃ i j, index D sorted = Some i ∧ index P sorted = Some j ∧ i < j.
Proof.
  intros Hac Hclosed.
  destruct (sort_loop_acyclic (length parts) h parts parts [] Hac)
    as [sorted Hs]; [done..|].
  pose proof (sort_loop_perm _ _ _ _ _ Hs) as Hperm.
  rewrite app_nil_r in Hperm.
  exists sorted. split_and!; [done|done|by intros P; rewrite Hperm|].
  intros P D HP HD.
  apply deps_before_index with h; [|by rewrite Hperm| |done].
  - eapply sort_loop_order; [| |done].
    + by intros x z ?%elem_of_nil.
    + apply deps_before_nil.
  - rewrite Hperm. by apply (Hclosed P).
Qed.

Lemma cyclic_sort_raises h parts :
  cyclic h parts → _sort_parts h parts = Raise circular_dependency.
Proof.
  intros [r Hr]. unfold _sort_parts.
  destruct (sort_loop (length parts) h parts []) as [sorted|e|] eqn:Hs.
  - exfalso. revert Hs. apply sort_loop_cyclic with parts r; [done|].
    intros x _ Hx. by apply depends_tc_elem in Hx as [? _].
  - by apply sort_loop_raise in Hs as ->.
  - by apply sort_loop_fuel in Hs.
Qed.

Lemma cyclic_init_raises fuel data self :
  build_graph fuel data = Ret self →
  cyclic (heap self) (all_parts self) →
  __init__ fuel data = Raise circular_dependency.
Proof.
  intros Hb Hc%cyclic_sort_raises.
  unfold __init__. by rewrite Hb; simpl; rewrite Hc.
Qed.

(** C2. If the dependency relation of the parts has a cycle, of length one
    (a part in its own [deps]) or longer, the sort raises the
    circular-dependency error, and the constructor raises it too instead of
    returning a configuration. *)
Theorem sort_parts_circular h parts :
  cyclic h parts →
  _sort_parts h parts = Raise circular_dependency ∧
  ∀ fuel data self,
    build_graph fuel data = Ret self →
    heap self = h → all_parts self = parts →
    __init__ fuel data = Raise circular_dependency.
Proof.
  intros Hc. split; [by apply cyclic_sort_raises|].
  intros fuel data self Hb <- <-. by apply cyclic_init_raises with self.
Qed.

(** C8. The sort terminates on every input: an iteration of its loop
    either raises the circular-dependency error or takes exactly one part
    out of the remaining list, and for [n] parts the loop has ended after
    at most [n] iterations (a larger bound changes nothing). *)
Theorem sort_parts_terminates h parts :
  ((∃ sorted, _sort_parts h parts = Ret sorted)
   ∨ _sort_parts h parts = Raise circular_dependency) ∧
  (∀ fuel, length parts ≤ fuel →
     sort_loop fuel h parts [] = _sort_parts h parts) ∧
  (∀ fuel rem acc, rem ≠ [] →
     (find_top h rem = None ∧
      sort_loop (S fuel) h rem acc = Raise circular_dependency)
     ∨ (∃ top, find_top h rem = Some top ∧ top ∈ rem ∧
          S (length (list_remove_first top rem)) = length rem ∧
          sort_loop (S fuel) h rem acc
          = sort_loop fuel h (list_remove_first top rem) (top :: acc))).
Proof.
  split_and!.
  - unfold _sort_parts.
    destruct (sort_loop (length parts) h parts []) as [sorted|e|] eqn:Hs.
    + left. by eexists.
    + right. by apply sort_loop_raise in Hs as ->.
    + by apply sort_loop_fuel in Hs.
  - intros fuel Hle. by apply sort_loop_fuel_irrel.
  - intros fuel rem acc. apply sort_loop_step.
Qed.

(** C10. The sort returns a permutation of its input: when it succeeds,
    every part occurs in the output as often as in the input, so a part of
    a duplicate-free input occurs exactly once, and nothing else occurs. *)
Theorem sort_parts_permutation h parts sorted :
  _sort_parts h parts = Ret sorted →
  sorted ≡ₚ parts ∧
  (∀ p, p ∈ sorted ↔ p ∈ parts) ∧
  (∀ p, count_occ Nat.eq_dec sorted p = count_occ Nat.eq_dec parts p) ∧
  (NoDup parts → ∀ p, p ∈ parts → count_occ Nat.eq_dec sorted p = 1) ∧
  length sorted = length parts.
Proof.
  intros Hs%sort_loop_perm. rewrite app_nil_r in Hs.
  split_and!; [done| | | |by rewrite Hs].
  - intros p. by rewrite Hs.
  - intros p. by apply Permutation_count_occ.
  - intros Hnd p Hp. rewrite (proj1 (Permutation_count_occ Nat.eq_dec sorted parts) Hs).
    apply NoDup_count_occ'; [by apply NoDup_ListNoDup|by apply list_elem_of_In].
Qed.

(** ** The constructor *)

Lemma init_spec fuel data cfg :
  __init__ fuel data = Ret cfg →
  ∃ self,
    build_graph fuel data = Ret self ∧
    _sort_parts (heap self) (all_parts self) = Ret (all_parts cfg) ∧
    heap cfg = heap self ∧
    build_tools cfg = build_tools self.
Proof.
  unfold __init__.
  destruct (build_graph fuel data) as [self| |]; simpl; [|done..].
  destruct (_sort_parts (heap self) (all_parts self)) as [sorted| |] eqn:Hs;
    simpl; [|done..].
  intros [= <-]. exists self. by split_and!.
Qed.

Lemma sort_parts_no_self h parts sorted r :
  _sort_parts h parts = Ret sorted → r ∈ sorted → r ∉ deps_of h r.
Proof.
  intros Hs (l1 & l2 & ->)%list_elem_of_split.
  apply (sort_loop_order _ _ _ _ _) in Hs.
  - apply (Hs l1 r l2); [done|]. apply elem_of_cons. by left.
  - by intros x z ?%elem_of_nil.
  - apply deps_before_nil.
Qed.

(** The dictionary [afterRequests] and the input: a name that is not
    declared has no entry, and under a declared name, the keys of [parts]
    being distinct as in a dictionary, is the [after] list of its entry. *)
Lemma after_requests_other (parts : list (string * option Properties)) n
    (afterRequests : gmap string (list string)) :
  n ∉ parts.*1 →
  foldl (λ afterRequests item,
           match after (default no_properties item.2) with
           | Some l => <[item.1 := l]> afterRequests
           | None => afterRequests
           end) afterRequests parts !! n = afterRequests !! n.
Proof.
  revert afterRequests.
  induction parts as [|[k e] parts IH]; intros aR Hn; [done|].
  simpl in *. apply not_elem_of_cons in Hn as [Hne Hn]. rewrite IH by done.
  destruct (after (default no_properties e)); [|done].
  by rewrite lookup_insert_ne.
Qed.

Lemma after_requests_declared_from (parts : list (string * option Properties))
    pn entry (afterRequests : gmap string (list string)) :
  NoDup parts.*1 → (pn, entry) ∈ parts → afterRequests !! pn = None →
  foldl (λ afterRequests item,
           match after (default no_properties item.2) with
           | Some l => <[item.1 := l]> afterRequests
           | None => afterRequests
           end) afterRequests parts !! pn
  = after (default no_properties entry).
Proof.
  revert afterRequests.
  induction parts as [|[k e] parts IH]; intros aR Hnd Hin Hnone;
    [by apply elem_of_nil in Hin|].
  simpl in Hnd. apply NoDup_cons in Hnd as [Hk Hnd].
  apply elem_of_cons in Hin as [[= <- <-]|Hin]; simpl.
  - rewrite after_requests_other by done.
    destruct (after (default no_properties entry)); [|done].
    by rewrite lookup_insert_eq.
  - apply IH; [done..|].
    assert (k ≠ pn) as Hne.
    { intros ->. apply Hk. by apply (list_elem_of_fmap_2' _ _ (pn, entry)). }
    destruct (after (default no_properties e)); [|done].
    by rewrite lookup_insert_ne.
Qed.

Lemma after_requests_declared (parts : list (string * option Properties))
    pn entry :
  NoDup parts.*1 → (pn, entry) ∈ parts →
  after_requests parts !! pn = after (default no_properties entry).
Proof. intros Hnd Hin. by apply after_requests_declared_from. Qed.

(** C3 (as amended). For every loaded part, after edge attachment its
    [deps] is the list of the parts found for the names of [requires]
    followed by [after], in that order and one reference for each name:
    nothing is deduplicated, so that a name listed twice gives two
    references to the same part. *)
Theorem deps_requires_then_after fuel data self r :
  build_graph fuel data = Ret self →
  r ∈ all_parts self →
  let p := heap self !!! r in
  let afterRequests := after_requests (default [] (yaml_parts data)) in
  Forall2 (λ dep found, find_part self dep = Some found)
          (config_get p "requires" ++ default [] (afterRequests !! name p))
          (deps p) ∧
  length (deps p)
  = length (config_get p "requires")
    + length (default [] (afterRequests !! name p)).
Proof.
  intros (self0 & _ & _ & _ & _ & _ & Hr)%build_graph_spec Hin p aR.
  destruct (Hr r Hin) as [_ HF].
  change (depNames ?a ?q)
    with (config_get q "requires" ++ default [] (a !! name q)) in HF.
  subst p aR. split; [done|].
  rewrite <- length_app. symmetry. exact (Forall2_length _ _ _ HF).
Qed.


(** In a configuration that the constructor returns, every dependency of
    a part comes before the part in [all_parts]. *)
Lemma init_dependencies_first fuel data cfg P D :
  __init__ fuel data = Ret cfg →
  P ∈ all_parts cfg → D ∈ deps (heap cfg !!! P) →
  ∃ i j, index D (all_parts cfg) = Some i ∧
         index P (all_parts cfg) = Some j ∧ i < j.
Proof.
  intros (self & Hb & Hs & Hheap & _)%init_spec HP HD.
  pose proof (sort_loop_perm _ _ _ _ _ Hs) as Hperm.
  rewrite app_nil_r in Hperm. rewrite Hheap in HD.
  apply deps_before_index with (heap self); [|done| |done].
  - eapply sort_loop_order; [| |exact Hs].
    + by intros x z ?%elem_of_nil.
    + apply deps_before_nil.
  - rewrite Hperm. apply (build_graph_closed _ _ _ Hb P); [|done].
    by rewrite <- Hperm.
Qed.

(** ** Which parts are loaded *)

Lemma declared_part_names (parts : list (string * option Properties)) :
  name <$> (declared_part <$> parts) = parts.*1.
Proof. rewrite <- list_fmap_compose. by apply list_fmap_ext. Qed.

Lemma load_parts_terminates (U : list string) data fuel :
  (∀ n, config_get (required_part n) "requires" ⊆ U) →
  length (default [] (yaml_parts data))
  + length (((declared_part <$> default [] (yaml_parts data))
             ≫= λ x, config_get x "requires") ++ U) ≤ fuel →
  ∃ self afterRequests, load_parts fuel data = Ret (self, afterRequests).
Proof.
  intros HU Hfuel. unfold load_parts.
  destruct (foldl load_declared _ _) as [self0 aR] eqn:Hdecl.
  apply load_declared_spec in Hdecl as [Hwf0 Hh0]; [|done]. simpl in Hh0.
  rewrite Hwf0, <- (Nat.sub_0_r (length (heap self0))).
  edestruct (load_required_terminates
               (((declared_part <$> default [] (yaml_parts data))
                 ≫= λ x, config_get x "requires") ++ U)
               fuel self0 0 []) as [self1 ->].
  - done.
  - intros n x Hx. apply elem_of_app. right. by apply (HU n).
  - intros x Hx n Hn. apply elem_of_app. left.
    apply list_elem_of_bind. exists x. split; [done|]. by rewrite <- Hh0.
  - apply NoDup_nil_2.
  - by intros ? ?%elem_of_nil.
  - by intros ? ?%elem_of_nil.
  - rewrite Hh0, length_fmap. simpl. lia.
  - simpl. by eexists _, _.
Qed.

(** Edge attachment ends the process when a name of some [depNames] is
    the name of no part. *)
Lemma build_graph_unresolved fuel data self0 afterRequests r dep :
  load_parts fuel data = Ret (self0, afterRequests) →
  r ∈ all_parts self0 →
  dep ∈ depNames afterRequests (heap self0 !!! r) →
  dep ∉ name <$> heap self0 →
  build_graph fuel data = Raise (SystemExit 1).
Proof.
  intros Hload Hr Hdep Hnot. unfold build_graph. rewrite Hload. simpl.
  destruct (load_parts_spec _ _ _ _ Hload) as (new & _ & Hwf & _).
  destruct (for_each_cases (attach_part afterRequests) (SystemExit 1)
              (all_parts self0) self0) as [[self Hf]|Hf]; [| |done].
  { intros s p. apply for_each_cases. intros s' d. apply attach_dep_cases. }
  exfalso. apply attach_parts_spec in Hf as (_ & _ & _ & _ & Hps).
  2:{ rewrite Hwf. apply NoDup_seq. }
  2:{ intros p. by apply in_load_order_elem. }
  destruct (Hps r Hr) as (found & HF & _).
  apply list_elem_of_lookup in Hdep as [i Hi].
  destruct (Forall2_lookup_l _ _ _ _ _ HF Hi) as (f & _ & Hf).
  apply find_part_Some in Hf as [Hf <-]. apply Hnot.
  apply list_elem_of_fmap_2, list_elem_of_lookup_total_2.
  by apply in_load_order_elem.
Qed.

(** The loop over the declared parts creates the same parts whether or not
    the entries have an [after] key. *)
Lemma load_declared_without_after parts self afterRequests afterRequests0 :
  foldl load_declared (self, afterRequests)
    ((λ item : string * option Properties,
        (item.1,
         (λ properties,
            {| plugin := plugin properties; after := None;
               options := options properties |}) <$> item.2)) <$> parts)
  = ((foldl load_declared (self, afterRequests0) parts).1, afterRequests).
Proof.
  revert self afterRequests0.
  induction parts as [|[pn [props|]] parts IH]; intros self aR0; [done|..].
  - rewrite fmap_cons. simpl. apply IH.
  - rewrite fmap_cons. simpl. apply IH.
Qed.

Lemma load_parts_without_after fuel data self afterRequests :
  load_parts fuel data = Ret (self, afterRequests) →
  load_parts fuel (without_after data) = Ret (self, ∅).
Proof.
  intros Hload. unfold load_parts in *.
  assert (default [] (yaml_parts (without_after data))
          = (λ item : string * option Properties,
               (item.1,
                (λ properties,
                   {| plugin := plugin properties; after := None;
                      options := options properties |}) <$> item.2))
            <$> default [] (yaml_parts data)) as ->.
  { unfold without_after. simpl. by destruct (yaml_parts data). }
  change (new_config (without_after data)) with (new_config data).
  rewrite (load_declared_without_after _ _ _ ∅).
  destruct (foldl load_declared (new_config data, ∅) _) as [self0 aR].
  simpl in *.
  destruct (load_required fuel self0 (all_parts self0)) as [self1| |];
    simpl in *; [|done..].
  by injection Hload as -> _.
Qed.

(** The parts that the loop [while newParts] creates: those whose name is
    required by a loaded part and is not the name of a declared part. *)
Lemma load_parts_new fuel data self afterRequests :
  load_parts fuel data = Ret (self, afterRequests) →
  ∃ new,
    heap self = (declared_part <$> default [] (yaml_parts data))
                ++ (required_part <$> new) ∧
    name <$> heap self = (default [] (yaml_parts data)).*1 ++ new ∧
    in_load_order self ∧
    NoDup new ∧
    ∀ n, n ∈ new ↔
      (∃ p, p ∈ all_parts self ∧ n ∈ config_get (heap self !!! p) "requires")
      ∧ n ∉ (default [] (yaml_parts data)).*1.
Proof.
  intros (new & Hh & Hwf & Hnd & Hnew & Hall)%load_parts_spec.
  assert (name <$> heap self = (default [] (yaml_parts data)).*1 ++ new)
    as Hnames.
  { by rewrite Hh, fmap_app, declared_part_names, name_required_parts. }
  exists new. split_and!; try done. intros n. split.
  - intros Hn. destruct (Hnew n Hn) as [Hnot (x & Hx & Hreq)].
    split; [|done].
    apply list_elem_of_lookup_total_1 in Hx as (p & Hp & <-).
    exists p. split; [|done]. by apply in_load_order_elem.
  - intros [(p & Hp & Hreq) Hnot].
    assert (n ∈ name <$> heap self) as Hin.
    { apply (Hall (heap self !!! p)); [|done].
      by apply list_elem_of_lookup_total_2, in_load_order_elem. }
    rewrite Hnames in Hin. by apply elem_of_app in Hin as [?|?].
Qed.

(** C4. When a declared part requires a name [foo] that no entry of
    [parts] has, loading the parts creates one part named [foo], with
    plugin [foo] and with empty properties, and appends it to the loaded
    parts after the declared ones.  Loading ends when the names that
    plugins require are drawn from a finite list. *)
Theorem required_part_is_loaded (U : list string) data pn entry foo :
  (pn, entry) ∈ default [] (yaml_parts data) →
  foo ∈ config_get (declared_part (pn, entry)) "requires" →
  foo ∉ (default [] (yaml_parts data)).*1 →
  ((∀ n, config_get (required_part n) "requires" ⊆ U) →
   ∃ fuel0, ∀ fuel, fuel0 ≤ fuel →
     ∃ self afterRequests, load_parts fuel data = Ret (self, afterRequests)) ∧
  (∀ fuel self afterRequests,
     load_parts fuel data = Ret (self, afterRequests) →
     ∃ r, r ∈ all_parts self ∧
          length (default [] (yaml_parts data)) ≤ r ∧
          heap self !!! r = plugin_load_plugin snapcraft_plugin foo foo no_properties ∧
          name (heap self !!! r) = foo ∧
          pluginName (heap self !!! r) = foo ∧
          properties (heap self !!! r) = no_properties ∧
          ∀ r', r' ∈ all_parts self → name (heap self !!! r') = foo → r' = r) ∧
  (∀ fuel cfg,
     __init__ fuel data = Ret cfg →
     ∃ r, r ∈ all_parts cfg ∧
          name (heap cfg !!! r) = foo ∧
          pluginName (heap cfg !!! r) = foo ∧
          properties (heap cfg !!! r) = no_properties).
Proof.
  intros Hin Hfoo Hnot.
  assert (∀ fuel self afterRequests,
     load_parts fuel data = Ret (self, afterRequests) →
     ∃ r, r ∈ all_parts self ∧
          length (default [] (yaml_parts data)) ≤ r ∧
          heap self !!! r = required_part foo ∧
          ∀ r', r' ∈ all_parts self → name (heap self !!! r') = foo → r' = r)
    as Hloaded.
  { intros fuel self aR Hload.
    destruct (load_parts_new _ _ _ _ Hload)
      as (new & Hh & Hnames & Hwf & Hnd & Hnew).
    assert (declared_part (pn, entry) ∈ heap self) as Hdecl.
    { rewrite Hh. apply elem_of_app. left. by apply list_elem_of_fmap_2. }
    apply list_elem_of_lookup_total_1 in Hdecl as (p & Hp & Hdecl).
    assert (foo ∈ new) as [i Hi]%list_elem_of_lookup.
    { apply Hnew. split; [|done]. exists p.
      split; [by apply in_load_order_elem|by rewrite Hdecl]. }
    set (parts := default [] (yaml_parts data)) in *.
    assert (heap self !! (length parts + i) = Some (required_part foo)) as Hr.
    { rewrite Hh, lookup_app_r; rewrite length_fmap; [|lia].
      replace (length parts + i - length parts) with i by lia.
      by rewrite list_lookup_fmap, Hi. }
    exists (length parts + i). split_and!.
    - apply in_load_order_elem; [done|]. by apply lookup_lt_Some in Hr.
    - lia.
    - by apply list_lookup_total_correct.
    - intros r' Hr' Hname. apply in_load_order_elem in Hr'; [|done].
      assert ((name <$> heap self) !! r' = Some foo) as Hl.
      { rewrite list_lookup_fmap, list_lookup_lookup_total_lt by done.
        simpl. by rewrite Hname. }
      rewrite Hnames in Hl.
      destruct (decide (r' < length parts)) as [Hlt|Hge].
      + rewrite lookup_app_l in Hl by (by rewrite length_fmap).
        by apply list_elem_of_lookup_2 in Hl.
      + rewrite lookup_app_r, length_fmap in Hl by (rewrite length_fmap; lia).
        pose proof (NoDup_lookup _ _ _ _ Hnd Hi Hl). lia. }
  split_and!.
  - intros HU. eexists. intros fuel Hfuel.
    by apply (load_parts_terminates U).
  - intros fuel self aR Hload.
    destruct (Hloaded _ _ _ Hload) as (r & Hr & Hge & Heq & Huniq).
    exists r. rewrite Heq. by split_and!.
  - intros fuel cfg (self & Hb & Hs & Hheap & _)%init_spec.
    destruct (build_graph_spec _ _ _ Hb)
      as (self0 & Hload & _ & Hall & _ & _ & Hparts).
    destruct (Hloaded _ _ _ Hload) as (r & Hr & _ & Heq & _).
    rewrite <- Hall in Hr. destruct (Hparts r Hr) as [Hset _].
    exists r. rewrite Hheap, Hset, Heq. split_and!; try done.
    apply sort_loop_perm in Hs. rewrite app_nil_r in Hs. by rewrite Hs.
Qed.

(** C5. A name that occurs only in an [after] list never makes a part be
    loaded: the loaded parts are the same as for the input without its
    [after] keys; the parts created beyond the declared ones are exactly
    those whose name is required by a loaded part and is not a declared
    name; and an [after] name that is neither declared nor required is the
    name of no part, so that edge attachment ends the process with
    [sys.exit(1)]. *)
Theorem after_never_triggers_loading fuel data self afterRequests :
  load_parts fuel data = Ret (self, afterRequests) →
  load_parts fuel (without_after data) = Ret (self, ∅) ∧
  afterRequests = after_requests (default [] (yaml_parts data)) ∧
  (∃ new,
     heap self = (declared_part <$> default [] (yaml_parts data))
                 ++ (required_part <$> new) ∧
     NoDup new ∧
     ∀ n, n ∈ new ↔
       (∃ p, p ∈ all_parts self ∧
             n ∈ config_get (heap self !!! p) "requires")
       ∧ n ∉ (default [] (yaml_parts data)).*1) ∧
  (∀ r n,
     r ∈ all_parts self →
     n ∈ default [] (afterRequests !! name (heap self !!! r)) →
     n ∉ (default [] (yaml_parts data)).*1 →
     (∀ p, p ∈ all_parts self → n ∉ config_get (heap self !!! p) "requires") →
     (n ∉ name <$> heap self) ∧
     build_graph fuel data = Raise (SystemExit 1) ∧
     __init__ fuel data = Raise (SystemExit 1)).
Proof.
  intros Hload.
  destruct (load_parts_new _ _ _ _ Hload)
    as (new & Hh & Hnames & Hwf & Hnd & Hnew).
  split_and!.
  - by eapply load_parts_without_after.
  - by eapply load_parts_after.
  - by exists new.
  - intros r n Hr Hafter Hdecl Hreq.
    assert (n ∉ name <$> heap self) as Hnot.
    { rewrite Hnames. intros [Hn|Hn]%elem_of_app; [done|].
      apply Hnew in Hn as [(p & Hp & Hn) _]. by apply (Hreq p). }
    assert (build_graph fuel data = Raise (SystemExit 1)) as Hb.
    { apply (build_graph_unresolved _ _ self afterRequests r n); try done.
      apply elem_of_app. by right. }
    split_and!; [done..|]. unfold __init__. by rewrite Hb.
Qed.

(** ** More on the sort *)

Lemma sort_loop_suffix fuel h rem acc res :
  sort_loop fuel h rem acc = Ret res → ∃ pre, res = pre ++ acc.
Proof.
  revert rem acc. induction fuel as [|fuel IH]; intros rem acc Hs.
  - destruct rem; [|done]. simpl in Hs. injection Hs as <-. by exists [].
  - destruct rem as [|p rem]; [simpl in Hs; injection Hs as <-; by exists []|].
    destruct (sort_loop_step fuel h (p :: rem) acc) as [[_ Hr]|(top&_&_&_&Hr)];
      [done|congruence|].
    rewrite Hr in Hs. apply IH in Hs as [pre ->].
    exists (pre ++ [top]). by rewrite <- app_assoc.
Qed.

Lemma find_top_head h p rem :
  (∀ other, other ∈ p :: rem → p ∉ deps_of h other) →
  find_top h (p :: rem) = Some p.
Proof.
  intros Hp. unfold find_top. cbn [find].
  destruct (mentioned h (p :: rem) p) eqn:Hm; [|done].
  apply mentioned_true in Hm as (other & Ho & Hd). by destruct (Hp other Ho).
Qed.

Lemma sort_loop_independent fuel h rem acc :
  (∀ p d, p ∈ rem → d ∈ deps_of h p → d ∉ rem) →
  length rem ≤ fuel →
  sort_loop fuel h rem acc = Ret (reverse rem ++ acc).
Proof.
  revert fuel acc. induction rem as [|p rem IH]; intros fuel acc Hind Hlen.
  - by destruct fuel.
  - destruct fuel as [|fuel]; [simpl in Hlen; lia|].
    cbn [sort_loop]. rewrite find_top_head.
    2:{ intros other Ho Hd. apply (Hind other p Ho Hd), elem_of_cons. by left. }
    cbn [list_remove_first]. rewrite decide_True by done.
    rewrite IH, reverse_cons, <- app_assoc; [done| |simpl in Hlen; lia].
    intros q d Hq Hd Hin. apply (Hind q d); [|done|]; apply elem_of_cons;
      by right.
Qed.

(** X1. The sort returns a list exactly when the dependency relation of
    the parts has no cycle; the list it returns holds the parts of the
    input with every dependency before its dependents; and on every input
    with a cycle it raises the circular-dependency error. *)
Theorem sort_parts_returns_iff_acyclic h parts :
  ((∃ sorted, _sort_parts h parts = Ret sorted) ↔ acyclic h parts) ∧
  (∀ sorted, _sort_parts h parts = Ret sorted →
     sorted ≡ₚ parts ∧
     ∀ P D, P ∈ parts → D ∈ parts → D ∈ deps_of h P →
       ∃ i j, index D sorted = Some i ∧ index P sorted = Some j ∧ i < j) ∧
  (¬ acyclic h parts → _sort_parts h parts = Raise circular_dependency).
Proof.
  assert ((∃ sorted, _sort_parts h parts = Ret sorted) → acyclic h parts)
    as Hret.
  { intros [sorted Hs] r Hr.
    assert (cyclic h parts) as Hc%cyclic_sort_raises by (by exists r).
    congruence. }
  split_and!.
  - split; [done|]. intros Hac. by apply sort_loop_acyclic with parts.
  - intros sorted Hs.
    pose proof (sort_loop_perm _ _ _ _ _ Hs) as Hperm.
    rewrite app_nil_r in Hperm. split; [done|]. intros P D HP HD Hdep.
    apply deps_before_index with h; [|by rewrite Hperm..|done].
    eapply sort_loop_order; [| |exact Hs].
    + by intros x z ?%elem_of_nil.
    + apply deps_before_nil.
  - intros Hnot. unfold _sort_parts.
    destruct (sort_loop (length parts) h parts []) as [sorted|e|] eqn:Hs.
    + destruct Hnot. apply Hret. by exists sorted.
    + by apply sort_loop_raise in Hs as ->.
    + by apply sort_loop_fuel in Hs.
Qed.

(** X2. When no part has a part of the list in its [deps], the sort
    returns the list in reverse: it takes the first part each time and
    puts it in front of those taken before. *)
Theorem sort_parts_independent h parts :
  (∀ p d, p ∈ parts → d ∈ deps_of h p → d ∉ parts) →
  _sort_parts h parts = Ret (reverse parts).
Proof.
  intros Hind. unfold _sort_parts.
  rewrite sort_loop_independent by done. by rewrite app_nil_r.
Qed.

Lemma find_first {A} (f : A → bool) (l : list A) x :
  find f l = Some x →
  ∃ l1 l2, l = l1 ++ x :: l2 ∧ f x = true ∧ ∀ y, y ∈ l1 → f y = false.
Proof.
  induction l as [|a l IH]; [done|]. cbn [find].
  destruct (f a) eqn:Hfa.
  - intros [= ->]. exists [], l. split_and!; [done..|].
    by intros y ?%elem_of_nil.
  - intros (l1 & l2 & -> & Hx & Hl1)%IH. exists (a :: l1), l2.
    split_and!; [done..|]. intros y [->|Hy]%elem_of_cons; [done|by apply Hl1].
Qed.

(** X3. The last part of the sorted list is the first part of the input,
    in its order, that is in the [deps] of no part: every part before it
    in the input is in the [deps] of some part. *)
Theorem sort_parts_last h parts sorted :
  _sort_parts h parts = Ret sorted → parts ≠ [] →
  ∃ top before behind,
    parts = before ++ top :: behind ∧
    last sorted = Some top ∧
    (∀ other, other ∈ parts → top ∉ deps_of h other) ∧
    (∀ x, x ∈ before → ∃ other, other ∈ parts ∧ x ∈ deps_of h other).
Proof.
  unfold _sort_parts. intros Hs Hne.
  destruct parts as [|p parts]; [done|].
  destruct (sort_loop_step (length parts) h (p :: parts) [])
    as [[_ Hr]|(top & Hf & Hin & _ & Hr)]; [done|simpl in *; congruence|].
  cbn [length] in Hs. rewrite Hr in Hs.
  apply sort_loop_suffix in Hs as [pre ->].
  destruct (find_top_Some _ _ _ Hf) as [_ Htop].
  destruct (find_first _ _ _ Hf) as (before & behind & Heq & _ & Hbefore).
  exists top, before, behind. split_and!; [done|apply last_snoc|done|].
  intros x Hx. apply mentioned_true, negb_false_iff. by apply Hbefore.
Qed.

(** ** More on the constructor *)

Lemma lookup_total_ge h (r : ref) :
  length h ≤ r → h !!! r = (inhabitant : Part).
Proof. intros Hr. by rewrite list_lookup_total_alt, lookup_ge_None_2. Qed.

Lemma fmap_lookup_total_ext {B} (f : Part → B) h h0 :
  length h = length h0 →
  (∀ r, f (h !!! r) = f (h0 !!! r)) →
  f <$> h = f <$> h0.
Proof.
  revert h0. induction h as [|x h IH]; intros [|y h0] Hlen Hf; try done.
  rewrite !fmap_cons. f_equal.
  - apply (Hf 0).
  - apply IH; [by injection Hlen|]. intros r. apply (Hf (S r)).
Qed.

Lemma bind_lookup_total_ext {B} (f : Part → list B) h h0 :
  length h = length h0 →
  (∀ r, f (h !!! r) = f (h0 !!! r)) →
  h ≫= f = h0 ≫= f.
Proof.
  revert h0. induction h as [|x h IH]; intros [|y h0] Hlen Hf; try done.
  rewrite !bind_cons. f_equal.
  - apply (Hf 0).
  - apply IH; [by injection Hlen|]. intros r. apply (Hf (S r)).
Qed.

(** The state at the end of graph construction against the state at the
    end of loading: the same objects, with only their [deps] changed. *)
Lemma build_graph_frame fuel data self :
  build_graph fuel data = Ret self →
  ∃ self0,
    load_parts fuel data
    = Ret (self0, after_requests (default [] (yaml_parts data))) ∧
    in_load_order self ∧
    all_parts self = all_parts self0 ∧
    length (heap self) = length (heap self0) ∧
    build_tools self = build_tools self0 ∧
    ∀ r, heap self !!! r
         = set_deps (heap self0 !!! r) (deps (heap self !!! r)).
Proof.
  intros (self0 & Hload & Hwf & Hall & Hlen & Hbt & Hr)%build_graph_spec.
  exists self0. split_and!; try done. intros r.
  destruct (decide (r ∈ all_parts self)) as [Hin|Hnin]; [by apply Hr|].
  rewrite in_load_order_elem in Hnin by done.
  rewrite !lookup_total_ge by lia. done.
Qed.

Lemma init_frame fuel data cfg :
  __init__ fuel data = Ret cfg →
  ∃ self0,
    load_parts fuel data
    = Ret (self0, after_requests (default [] (yaml_parts data))) ∧
    all_parts cfg ≡ₚ all_parts self0 ∧
    length (heap cfg) = length (heap self0) ∧
    build_tools cfg = build_tools self0 ∧
    ∀ r, heap cfg !!! r
         = set_deps (heap self0 !!! r) (deps (heap cfg !!! r)).
Proof.
  intros (self & Hb & Hs & Hheap & Hbt)%init_spec.
  destruct (build_graph_frame _ _ _ Hb)
    as (self0 & Hload & _ & Hall & Hlen & Hbt' & Hr).
  exists self0. rewrite Hheap, Hbt. split_and!; try done.
  apply sort_loop_perm in Hs. by rewrite app_nil_r, Hall in Hs.
Qed.

Lemma load_plugin_tools base self pn pl props :
  tools_inv base self → tools_inv base (load_plugin self pn pl props).1.
Proof.
  unfold tools_inv. cbn [load_plugin fst heap build_tools]. intros ->.
  rewrite bind_app, bind_cons, <- app_assoc. f_equal. f_equal.
  by rewrite app_nil_r.
Qed.

Lemma load_declared_tools base parts self afterRequests :
  tools_inv base self →
  tools_inv base (foldl load_declared (self, afterRequests) parts).1.
Proof.
  revert self afterRequests.
  induction parts as [|[pn entry] parts IH]; intros self aR Hinv; [done|].
  cbn [foldl]. apply IH. by apply load_plugin_tools.
Qed.

Lemma require_parts_tools base requires self newParts :
  tools_inv base self →
  tools_inv base (foldl require_part (self, newParts) requires).1.
Proof.
  revert self newParts.
  induction requires as [|n requires IH]; intros self newParts Hinv; [done|].
  cbn [foldl]. unfold require_part at 2.
  destruct (already_present self n); [by apply IH|].
  apply IH. by apply (load_plugin_tools base self n n no_properties).
Qed.

Lemma load_required_tools base fuel self newParts self' :
  tools_inv base self →
  load_required fuel self newParts = Ret self' → tools_inv base self'.
Proof.
  revert self newParts.
  induction fuel as [|fuel IH]; intros self newParts Hinv Hl.
  - destruct newParts; [|done]. by injection Hl as <-.
  - destruct newParts as [|part newParts]; [by injection Hl as <-|].
    cbn [load_required] in Hl.
    pose proof (require_parts_tools base
      (config_get (heap self !!! part) "requires") self newParts Hinv) as Hinv'.
    destruct (foldl require_part _ _) as [self1 newParts1].
    by apply (IH self1 newParts1).
Qed.

Lemma load_parts_tools fuel data self afterRequests :
  load_parts fuel data = Ret (self, afterRequests) →
  tools_inv (default [] (yaml_build_tools data)) self.
Proof.
  unfold load_parts.
  pose proof (load_declared_tools (default [] (yaml_build_tools data))
    (default [] (yaml_parts data)) (new_config data) ∅) as Hinv.
  destruct (foldl load_declared _ _) as [self0 aR].
  destruct (load_required _ _ _) as [self1| |] eqn:Hl; simpl; [|done..].
  intros [= <- <-]. eapply load_required_tools; [|done].
  apply Hinv. unfold tools_inv. simpl. by rewrite app_nil_r.
Qed.

(** X4. In a constructed configuration, [build_tools] is the [build-tools]
    list of the input followed by the [build-tools] of every loaded part,
    in the order in which the parts were loaded; nothing is removed and
    duplicates stay. *)
Theorem init_build_tools fuel data cfg :
  __init__ fuel data = Ret cfg →
  build_tools cfg
  = default [] (yaml_build_tools data) ++ (heap cfg ≫= part_build_tools).
Proof.
  intros (self0 & Hload & _ & Hlen & -> & Hr)%init_frame.
  rewrite (load_parts_tools _ _ _ _ Hload). f_equal.
  symmetry. apply bind_lookup_total_ext; [done|].
  intros r. by rewrite (Hr r).
Qed.

(** X5. When the keys of [parts] are distinct, as in a dictionary, no two
    parts of a constructed configuration have the same name. *)
Theorem constructed_names_distinct fuel data cfg :
  NoDup (default [] (yaml_parts data)).*1 →
  __init__ fuel data = Ret cfg →
  NoDup (name <$> heap cfg) ∧
  ∀ r1 r2, r1 ∈ all_parts cfg → r2 ∈ all_parts cfg →
           name (heap cfg !!! r1) = name (heap cfg !!! r2) → r1 = r2.
Proof.
  intros Hkeys (self0 & Hload & Hperm & Hlen & _ & Hr)%init_frame.
  destruct (load_parts_new _ _ _ _ Hload)
    as (new & _ & Hnames & Hwf & Hnd & Hnew).
  assert (name <$> heap cfg = name <$> heap self0) as Heq.
  { apply fmap_lookup_total_ext; [done|]. intros r. by rewrite (Hr r). }
  assert (NoDup (name <$> heap cfg)) as Hnodup.
  { rewrite Heq, Hnames. apply NoDup_app. split_and!; [done| |done].
    intros n Hn Hn'. by apply Hnew in Hn' as [_ ?]. }
  split; [done|]. intros r1 r2 H1 H2 Hname.
  rewrite Hperm in H1, H2.
  apply in_load_order_elem in H1; [|done].
  apply in_load_order_elem in H2; [|done].
  apply (NoDup_lookup _ r1 r2 (name (heap cfg !!! r1)) Hnodup).
  - rewrite list_lookup_fmap, list_lookup_lookup_total_lt by lia. done.
  - rewrite list_lookup_fmap, list_lookup_lookup_total_lt by lia.
    simpl. by rewrite Hname.
Qed.

(** ** When edge attachment returns *)

Lemma attach_deps_total part depnames self :
  (∀ dep, dep ∈ depnames → is_Some (find_part self dep)) →
  ∃ self', for_each (attach_dep part) depnames self = Ret self'.
Proof.
  revert self. induction depnames as [|dep depnames IH]; intros self Hres.
  - by eexists.
  - cbn [for_each].
    destruct (Hres dep) as [r Hr]; [apply elem_of_cons; by left|].
    assert (attach_dep part self dep
            = Ret {| heap := deps_append (heap self) part r;
                     build_tools := build_tools self;
                     all_parts := all_parts self |}) as ->
      by (unfold attach_dep; by rewrite Hr).
    cbn [mbind result_bind]. apply IH. intros d Hd.
    rewrite find_part_ext with (self := self); [|done|].
    + apply Hres, elem_of_cons. by right.
    + intros p. apply deps_append_name.
Qed.

Lemma attach_parts_total afterRequests ps self :
  (∀ p, p ∈ ps → p < length (heap self)) →
  (∀ p dep, p ∈ ps → dep ∈ depNames afterRequests (heap self !!! p) →
            is_Some (find_part self dep)) →
  ∃ self', for_each (attach_part afterRequests) ps self = Ret self'.
Proof.
  revert self. induction ps as [|p ps IH]; intros self Hlt Hres.
  - by eexists.
  - cbn [for_each].
    destruct (attach_deps_total p (depNames afterRequests (heap self !!! p))
                self) as [self1 H1].
    { intros dep Hdep. apply (Hres p); [apply elem_of_cons; by left|done]. }
    assert (attach_part afterRequests self p = Ret self1) as ->
      by exact H1.
    cbn [mbind result_bind].
    apply attach_deps_spec in H1 as (found & _ & Hp & Hj & Hlen & Hall & _);
      [|apply Hlt, elem_of_cons; by left].
    assert (∀ q, ∃ d, heap self1 !!! q = set_deps (heap self !!! q) d) as Hq.
    { intros q. destruct (decide (q = p)) as [->|Hne]; [by eexists|].
      exists (deps (heap self !!! q)). rewrite (Hj q Hne).
      by destruct (heap self !!! q). }
    apply IH.
    + intros q Hin. rewrite Hlen. apply Hlt, elem_of_cons. by right.
    + intros q dep Hin Hdep. destruct (Hq q) as [d Hd].
      rewrite Hd, depNames_set_deps in Hdep.
      rewrite find_part_ext with (self := self); [|done|].
      * apply (Hres q); [apply elem_of_cons; by right|done].
      * intros r. destruct (Hq r) as [d' ->]. done.
Qed.

(** X6. Once the parts are loaded, edge attachment never fails on a
    [requires] name: it returns exactly when every name of every [after]
    list is the name of a loaded part, and otherwise ends the process with
    [sys.exit(1)]. *)
Theorem build_graph_returns_iff fuel data self0 afterRequests :
  load_parts fuel data = Ret (self0, afterRequests) →
  ((∃ self, build_graph fuel data = Ret self) ↔
   ∀ r n, r ∈ all_parts self0 →
          n ∈ default [] (afterRequests !! name (heap self0 !!! r)) →
          n ∈ name <$> heap self0) ∧
  ((∃ self, build_graph fuel data = Ret self)
   ∨ build_graph fuel data = Raise (SystemExit 1)).
Proof.
  intros Hload.
  destruct (load_parts_spec _ _ _ _ Hload) as (new & _ & Hwf & _ & _ & Hall).
  split.
  - split.
    + intros [self Hb] r n Hr Hn.
      destruct (decide (n ∈ name <$> heap self0)) as [|Hnot]; [done|].
      rewrite (build_graph_unresolved _ _ self0 afterRequests r n) in Hb;
        [done..| |done].
      apply elem_of_app. by right.
    + intros Hafter. unfold build_graph. rewrite Hload.
      cbn [mbind result_bind]. apply attach_parts_total.
      * intros p. by apply in_load_order_elem.
      * intros p dep Hp Hdep. apply find_part_is_Some; [done|].
        apply elem_of_app in Hdep as [Hreq|Haft]; [|by apply (Hafter p)].
        apply (Hall (heap self0 !!! p)); [|done].
        by apply list_elem_of_lookup_total_2, in_load_order_elem.
  - unfold build_graph. rewrite Hload. cbn [mbind result_bind].
    apply for_each_cases. intros s p. apply for_each_cases.
    intros s' d. apply attach_dep_cases.
Qed.

(** ** The constructed configuration *)

Lemma acyclic_elems h parts parts' :
  (∀ x, x ∈ parts' → x ∈ parts) → acyclic h parts → acyclic h parts'.
Proof.
  intros Hsub Hac r Hr. apply (Hac r).
  apply (tc_congruence id (depends h parts) r r) in Hr; [done|].
  intros x y (Hx & Hy & Hd). split_and!; [by apply Hsub..|done].
Qed.

(** X7. In a constructed configuration, [all_parts] holds every loaded
    part exactly once, every dependency of a part is one of the parts,
    and the dependency relation has no cycle. *)
Theorem constructed_config_wellformed fuel data cfg :
  __init__ fuel data = Ret cfg →
  all_parts cfg ≡ₚ seq 0 (length (heap cfg)) ∧
  NoDup (all_parts cfg) ∧
  deps_closed (heap cfg) (all_parts cfg) ∧
  acyclic (heap cfg) (all_parts cfg).
Proof.
  intros (self & Hb & Hs & Hheap & _)%init_spec.
  destruct (build_graph_spec _ _ _ Hb) as (_ & _ & Hwf & _).
  pose proof (sort_loop_perm _ _ _ _ _ Hs) as Hperm.
  rewrite app_nil_r in Hperm.
  assert (all_parts cfg ≡ₚ seq 0 (length (heap cfg))) as Hseq.
  { by rewrite Hperm, Hwf, Hheap. }
  split_and!.
  - done.
  - rewrite Hseq. apply NoDup_seq.
  - intros P D HP HD. rewrite Hheap in HD. rewrite Hperm in HP |- *.
    by apply (build_graph_closed _ _ _ Hb P).
  - rewrite Hheap. apply acyclic_elems with (all_parts self).
    + intros x. by rewrite Hperm.
    + intros r Hr.
      assert (cyclic (heap self) (all_parts self)) as Hc%cyclic_sort_raises
        by (by exists r).
      congruence.
Qed.

Lemma stripped_nil (mappings : list Properties) :
  stripped [] mappings = mappings.
Proof.
  apply list_eq; intros i. unfold stripped. rewrite list_lookup_imap.
  by destruct (mappings !! i).
Qed.

Lemma stripped_alter rs (mappings : list Properties) r :
  alter strip_keys r (stripped rs mappings)
  = stripped (rs ++ [Some r]) mappings.
Proof.
  apply list_eq; intros i. unfold stripped.
  rewrite list_lookup_alter, !list_lookup_imap.
  destruct (decide (r = i)) as [->|Hne];
    (destruct (mappings !! i) as [p|]; simpl; [f_equal|done]).
  - rewrite (bool_decide_eq_true_2 (Some i ∈ rs ++ [Some i])).
    + by case_bool_decide.
    + apply elem_of_app. right. by apply list_elem_of_singleton.
  - rewrite (bool_decide_ext (Some i ∈ rs) (Some i ∈ rs ++ [Some r])); [done|].
    rewrite elem_of_app, list_elem_of_singleton. split; [by left|].
    intros [?|[= ?]]; [done|by destruct Hne].
Qed.

Lemma stripped_none rs (mappings : list Properties) :
  stripped (rs ++ [None]) mappings = stripped rs mappings.
Proof.
  apply imap_ext. intros i p _.
  rewrite (bool_decide_ext (Some i ∈ rs ++ [None]) (Some i ∈ rs)); [done|].
  rewrite elem_of_app, list_elem_of_singleton. split; [|by left].
  by intros [?|?].
Qed.

Lemma content_at_stripped mappings entries i r :
  content_at mappings entries i r
  = stripped (take i entries).*2 mappings !!! r.
Proof.
  unfold content_at, read_before, stripped.
  rewrite !list_lookup_total_alt, list_lookup_imap.
  destruct (mappings !! r); simpl; by case_bool_decide.
Qed.

(** The loop on the objects does what the loop on the contents does on
    the entries as they are read, and leaves the mappings that it has read
    without their keys [plugin] and [after]. *)
Lemma load_declared_shared_read mappings entries pre self
    (afterRequests : gmap string (list string)) :
  foldl load_declared_shared
    (self, afterRequests, stripped pre.*2 mappings) entries
  = (foldl load_declared (self, afterRequests)
       (drop (length pre) (entries_read mappings (pre ++ entries))),
     stripped (pre ++ entries).*2 mappings).
Proof.
  revert pre self afterRequests.
  induction entries as [|[pn entry] entries IH]; intros pre self aR.
  - rewrite app_nil_r. rewrite drop_ge; [done|].
    unfold entries_read. by rewrite length_imap.
  - cbn [foldl].
    assert (load_declared_shared (self, aR, stripped pre.*2 mappings)
              (pn, entry)
            = (load_declared (self, aR)
                 (pn, content_at mappings (pre ++ (pn, entry) :: entries)
                        (length pre) <$> entry),
               stripped (pre ++ [(pn, entry)]).*2 mappings)) as ->.
    { rewrite fmap_app. destruct entry as [r|]; simpl.
      - by rewrite content_at_stripped, take_app_length, stripped_alter.
      - by rewrite stripped_none. }
    destruct (load_declared (self, aR) _) as [self1 aR1] eqn:Hstep.
    rewrite (IH (pre ++ [(pn, entry)])). rewrite <- app_assoc. simpl.
    rewrite (drop_S (entries_read _ _)
               (pn, content_at mappings (pre ++ (pn, entry) :: entries)
                      (length pre) <$> entry) (length pre)).
    + cbn [foldl]. by rewrite Hstep, length_app, Nat.add_1_r.
    + unfold entries_read. rewrite list_lookup_imap.
      by rewrite list_lookup_middle.
Qed.

Lemma as_read_parts doc :
  default [] (yaml_parts (as_read doc))
  = entries_read (doc_mappings doc) (default [] (doc_parts doc)).
Proof. unfold as_read. simpl. by destruct (doc_parts doc). Qed.

Lemma entries_read_lookup mappings entries i pn entry :
  entries !! i = Some (pn, entry) →
  entries_read mappings entries !! i
  = Some (pn, content_at mappings entries i <$> entry).
Proof.
  intros Hi. unfold entries_read. by rewrite list_lookup_imap, Hi.
Qed.

Lemma entries_read_fst mappings entries :
  (entries_read mappings entries).*1 = entries.*1.
Proof.
  apply list_eq; intros i. unfold entries_read.
  rewrite !list_lookup_fmap, list_lookup_imap. by destruct (entries !! i).
Qed.

(** Loading on the objects is loading on the document as it is read. *)
Lemma load_parts_shared_read fuel doc :
  load_parts_shared fuel doc
  = '(self, afterRequests) ← load_parts fuel (as_read doc);
    Ret (self, afterRequests,
         stripped (default [] (doc_parts doc)).*2 (doc_mappings doc)).
Proof.
  unfold load_parts_shared, load_parts. rewrite as_read_parts.
  pose proof (load_declared_shared_read (doc_mappings doc)
                (default [] (doc_parts doc)) [] (new_config (as_read doc)) ∅)
    as Hread.
  simpl in Hread. rewrite stripped_nil in Hread.
  change (new_config (as_read doc))
    with {| heap := []; build_tools := default [] (doc_build_tools doc);
            all_parts := [] |} in Hread.
  rewrite Hread.
  destruct (foldl load_declared _ _) as [self0 aR].
  by destruct (load_required _ _ _).
Qed.

Lemma load_parts_shared_Ret fuel doc self afterRequests mappings :
  load_parts_shared fuel doc = Ret (self, afterRequests, mappings) →
  load_parts fuel (as_read doc) = Ret (self, afterRequests) ∧
  mappings = stripped (default [] (doc_parts doc)).*2 (doc_mappings doc).
Proof.
  rewrite load_parts_shared_read.
  destruct (load_parts fuel (as_read doc)) as [[self' aR']| |]; simpl;
    [|done..].
  by intros [= -> -> ->].
Qed.

Lemma unshared_not_read_before entries i pn r :
  NoDup (omap snd entries) → entries !! i = Some (pn, Some r) →
  read_before entries i r = false.
Proof.
  unfold read_before. revert i.
  induction entries as [|[p0 e0] entries IH]; intros i Hnd Hi; [done|].
  destruct i as [|i]; [by apply bool_decide_eq_false_2, not_elem_of_nil|].
  simpl in Hi. apply bool_decide_eq_false_2. simpl.
  intros [Heq|Hin]%elem_of_cons.
  - subst e0. simpl in Hnd. apply NoDup_cons in Hnd as [Hr _]. apply Hr.
    apply list_elem_of_omap. exists (pn, Some r). split; [|done].
    by apply list_elem_of_lookup_2 with i.
  - assert (NoDup (omap snd entries)) as Hnd'.
    { destruct e0; simpl in Hnd; [by apply NoDup_cons in Hnd as [_ ?]|done]. }
    specialize (IH i Hnd' Hi). by apply bool_decide_eq_false_1 in IH.
Qed.

(** X8. The declared parts are loaded first, one for each entry of
    [parts] and in the order of the entries.  The part at position [i] has
    the name of entry [i] and the content of the entry's mapping without
    the keys [plugin] and [after]; its plugin is the one named by the
    [plugin] key of the mapping, or else its own name.  When the mapping is
    also the value of an earlier entry (an alias), that key is gone by
    then, and the plugin is the part's own name whatever the mapping
    says. *)
Theorem declared_parts_loaded_first fuel doc self afterRequests mappings
    i pn entry :
  load_parts_shared fuel doc = Ret (self, afterRequests, mappings) →
  default [] (doc_parts doc) !! i = Some (pn, entry) →
  all_parts self !! i = Some i ∧
  name (heap self !!! i) = pn ∧
  pluginName (heap self !!! i)
  = match entry with
    | Some r =>
      if read_before (default [] (doc_parts doc)) i r then pn
      else default pn (plugin (doc_mappings doc !!! r))
    | None => pn
    end ∧
  properties (heap self !!! i)
  = from_option (λ r, strip_keys (doc_mappings doc !!! r)) no_properties
                entry.
Proof.
  intros [(new & Hh & Hwf & _)%load_parts_spec _]%load_parts_shared_Ret Hi.
  rewrite as_read_parts in Hh.
  assert (heap self !! i
          = Some (declared_part
                    (pn, content_at (doc_mappings doc)
                           (default [] (doc_parts doc)) i <$> entry)))
    as Hp.
  { rewrite Hh. apply lookup_app_l_Some.
    by rewrite list_lookup_fmap, (entries_read_lookup _ _ _ _ _ Hi). }
  rewrite (list_lookup_total_correct _ _ _ Hp). split.
  { rewrite Hwf. apply lookup_seq_lt. by apply lookup_lt_Some in Hp. }
  split; [done|].
  destruct entry as [r|]; [|done]. unfold content_at. simpl.
  by destruct (read_before _ i r).
Qed.





(** X9. Edge attachment changes nothing but the [deps] of the parts: the
    list of parts, [build_tools] and every other field of every part are
    as they were when loading ended. *)
Theorem edge_attachment_only_deps fuel data self0 afterRequests self :
  load_parts fuel data = Ret (self0, afterRequests) →
  build_graph fuel data = Ret self →
  all_parts self = all_parts self0 ∧
  build_tools self = build_tools self0 ∧
  length (heap self) = length (heap self0) ∧
  ∀ r, heap self !!! r
       = set_deps (heap self0 !!! r) (deps (heap self !!! r)).
Proof.
  intros Hload (self0' & Hload' & _ & Hall & Hlen & Hbt & Hr)%build_graph_frame.
  rewrite Hload in Hload'. injection Hload' as <- _. by split_and!.
Qed.

(** X11. After edge attachment, the names of the parts in a part's [deps]
    are, in order, the names of its [requires] followed by the names of
    its [after] list. *)
Theorem deps_names fuel data self r :
  build_graph fuel data = Ret self →
  r ∈ all_parts self →
  (λ d, name (heap self !!! d)) <$> deps (heap self !!! r)
  = config_get (heap self !!! r) "requires"
    ++ default [] (after_requests (default [] (yaml_parts data))
                   !! name (heap self !!! r)).
Proof.
  intros (self0 & _ & _ & _ & _ & _ & Hr)%build_graph_spec Hin.
  destruct (Hr r Hin) as [_ HF].
  change (depNames ?a ?q)
    with (config_get q "requires" ++ default [] (a !! name q)) in HF.
  induction HF as [|dep found depnames l Hf _ IH]; [done|].
  rewrite fmap_cons, IH. f_equal. by apply find_part_Some in Hf as [_ ?].
Qed.

(** X12. An input without parts gives, for any bound on the loops, the
    configuration with no part and with the [build-tools] of the input. *)
Theorem init_without_parts fuel data :
  default [] (yaml_parts data) = [] →
  __init__ fuel data
  = Ret {| heap := []; build_tools := default [] (yaml_build_tools data);
           all_parts := [] |}.
Proof.
  intros Hparts. unfold __init__, build_graph, load_parts.
  rewrite Hparts. by destruct fuel.
Qed.

(** A rank for the parts of a constructed configuration that gets smaller
    along every dependency: the position in [all_parts]. *)
Lemma constructed_rank fuel data cfg :
  __init__ fuel data = Ret cfg →
  ∃ rank : ref → nat,
    (∀ p d, d ∈ deps_of (heap cfg) p → rank d < rank p) ∧
    ∀ p, rank p < S (length (all_parts cfg)).
Proof.
  intros Hinit. exists (λ p, default 0 (index p (all_parts cfg))).
  split.
  - intros p d Hd.
    destruct (decide (p ∈ all_parts cfg)) as [Hp|Hp].
    + destruct (init_dependencies_first _ _ _ p d Hinit Hp Hd)
        as (i & j & -> & -> & Hlt). done.
    + apply init_frame in Hinit as (self0 & Hload & Hperm & Hlen & _).
      destruct (load_parts_spec _ _ _ _ Hload) as (_ & _ & Hwf & _).
      rewrite Hperm, in_load_order_elem in Hp by done.
      unfold deps_of in Hd. rewrite lookup_total_ge in Hd by lia.
      by apply elem_of_nil in Hd.
  - intros p. destruct (index p (all_parts cfg)) as [i|] eqn:Hi; simpl; [|lia].
    apply index_lookup, lookup_lt_Some in Hi. lia.
Qed.

(** X16. When loading has ended, every name in the [requires] of a loaded
    part, declared or created for a requirement, is the name of a loaded
    part. *)
Theorem requires_closed fuel data self afterRequests p n :
  load_parts fuel data = Ret (self, afterRequests) →
  p ∈ all_parts self →
  n ∈ config_get (heap self !!! p) "requires" →
  ∃ q, q ∈ all_parts self ∧ name (heap self !!! q) = n.
Proof.
  intros (new & _ & Hwf & _ & _ & Hall)%load_parts_spec Hp Hn.
  assert (n ∈ name <$> heap self) as (x & -> & Hx)%list_elem_of_fmap.
  { apply (Hall (heap self !!! p)); [|done].
    by apply list_elem_of_lookup_total_2, in_load_order_elem. }
  apply list_elem_of_lookup_total_1 in Hx as (q & Hq & <-).
  exists q. split; [by apply in_load_order_elem|done].
Qed.

End Graph.

(** ** Environments *)

Arguments runtime_env : simpl never.
Arguments build_env : simpl never.
Arguments dep_env : simpl never.

Section Environments.

Context (get_arch_triplet : string).

Local Abbreviation runtime_env := (runtime_env get_arch_triplet).
Local Abbreviation build_env := (build_env get_arch_triplet).
Local Abbreviation dep_env := (dep_env get_arch_triplet).
Local Abbreviation build_env_for_dep := (build_env_for_dep get_arch_triplet).
Local Abbreviation build_env_for_part := (build_env_for_part get_arch_triplet).

Lemma build_env_for_dep_Ret recurse h acc dep res :
  build_env_for_dep recurse h acc dep = Ret res ↔
  ∃ sub, recurse dep = Ret sub ∧ res = acc ++ dep_env h dep ++ sub.
Proof.
  unfold build_env_for_dep, dep_env. split.
  - destruct (recurse dep) as [sub| |]; simpl; [|done..].
    intros [= <-]. exists sub. split; [done|]. by rewrite <- !app_assoc.
  - intros (sub & -> & ->). simpl. by rewrite <- !app_assoc.
Qed.

(** The loop over the dependencies: the result is the list given at the
    start followed, for each dependency in order, by its own environment
    and the result of the recursive call. *)
Lemma build_env_loop_Ret recurse h l acc res :
  for_each (build_env_for_dep recurse h) l acc = Ret res ↔
  ∃ subs,
    Forall2 (λ dep sub, recurse dep = Ret sub) l subs ∧
    res = acc ++ concat (zip_with (λ dep sub, dep_env h dep ++ sub) l subs).
Proof.
  revert acc res. induction l as [|d l IH]; intros acc res;
    cbn [for_each].
  - split.
    + intros [= <-]. exists []. split; [done|]. by rewrite app_nil_r.
    + intros (subs & ->%Forall2_nil_inv_l & ->). by rewrite app_nil_r.
  - split.
    + destruct (build_env_for_dep recurse h acc d) as [acc1| |] eqn:Hd;
        cbn [mbind result_bind]; [|done..].
      apply build_env_for_dep_Ret in Hd as (sub & Hsub & ->).
      intros (subs & HF & ->)%IH. exists (sub :: subs).
      split; [by constructor|]. cbn [zip_with concat].
      by rewrite <- !app_assoc.
    + intros (subs & (sub & subs' & Hsub & HF & ->)%Forall2_cons_inv_l & ->).
      assert (build_env_for_dep recurse h acc d
              = Ret (acc ++ dep_env h d ++ sub)) as ->.
      { apply build_env_for_dep_Ret. by exists sub. }
      cbn [mbind result_bind zip_with concat]. apply IH. exists subs'.
      split; [done|]. by rewrite <- !app_assoc.
Qed.

Lemma build_env_for_part_Ret fuel h part res :
  build_env_for_part (S fuel) h part = Ret res ↔
  ∃ subs,
    Forall2 (λ dep sub, build_env_for_part fuel h dep = Ret sub)
            (deps_of h part) subs ∧
    res = concat (zip_with (λ dep sub, dep_env h dep ++ sub)
                           (deps_of h part) subs).
Proof. apply (build_env_loop_Ret _ h (deps_of h part) []). Qed.

(** The part of the result that comes from one dependency. *)
Lemma build_env_split {A B C} (P : A → B → Prop) (f : A → B → list C)
    l1 d l2 subs :
  Forall2 P (l1 ++ d :: l2) subs →
  ∃ s1 sub s2,
    Forall2 P l1 s1 ∧ P d sub ∧ Forall2 P l2 s2 ∧
    concat (zip_with f (l1 ++ d :: l2) subs)
    = concat (zip_with f l1 s1) ++ f d sub ++ concat (zip_with f l2 s2).
Proof.
  intros (s1 & s' & H1 & (sub & s2 & Hd & H2 & ->)%Forall2_cons_inv_l & ->)
    %Forall2_app_inv_l.
  exists s1, sub, s2. split_and!; [done..|].
  rewrite zip_with_app by (by eapply Forall2_length).
  by rewrite concat_app.
Qed.

Lemma build_env_for_part_dep fuel h part l1 d l2 res :
  build_env_for_part fuel h part = Ret res →
  deps_of h part = l1 ++ d :: l2 →
  ∃ a sub c,
    build_env_for_part (pred fuel) h d = Ret sub ∧
    res = a ++ (dep_env h d ++ sub) ++ c.
Proof.
  destruct fuel as [|fuel]; [done|].
  intros (subs & HF & ->)%build_env_for_part_Ret Hdeps. rewrite Hdeps in *.
  destruct (build_env_split _ (λ dep sub, dep_env h dep ++ sub) _ _ _ _ HF)
    as (s1 & sub & s2 & _ & Hd & _ & ->).
  by eexists _, sub, _.
Qed.

Lemma build_env_for_part_terminates h (rank : ref → nat) fuel part :
  (∀ p d, d ∈ deps_of h p → rank d < rank p) →
  rank part < fuel →
  ∃ res, build_env_for_part fuel h part = Ret res.
Proof.
  intros Hrank. revert part.
  induction fuel as [|fuel IH]; intros part Hlt; [lia|].
  assert (∃ subs, Forall2 (λ dep sub, build_env_for_part fuel h dep = Ret sub)
                          (deps_of h part) subs) as [subs HF].
  { assert (∀ d, d ∈ deps_of h part → rank d < fuel) as Hd.
    { intros d Hd%Hrank. lia. }
    induction (deps_of h part) as [|d l IHl]; [by exists []|].
    destruct (IH d) as [sub Hsub]; [apply Hd, elem_of_cons; by left|].
    destruct IHl as [subs HF]; [intros; apply Hd, elem_of_cons; by right|].
    exists (sub :: subs). by constructor. }
  eexists. apply build_env_for_part_Ret. by exists subs.
Qed.

(** C6. [build_env_for_part] does not deduplicate shared dependencies: for
    a part with two direct dependencies [d1] and [d2] that share a
    dependency, the returned list holds the environment of the shared part
    (runtime environment, build environment and its own environment) once
    in the expansion of [d1] and once more in the expansion of [d2]. *)
Theorem build_env_for_part_diamond h (rank : ref → nat) fuel
    part d1 d2 shared l1 l2 l3 :
  (∀ p d, d ∈ deps_of h p → rank d < rank p) →
  deps_of h part = l1 ++ d1 :: l2 ++ d2 :: l3 →
  shared ∈ deps_of h d1 →
  shared ∈ deps_of h d2 →
  rank part < fuel →
  ∃ res sub1 sub2 a b c x1 y1 x2 y2,
    build_env_for_part fuel h part = Ret res ∧
    res = a ++ (dep_env h d1 ++ sub1) ++ b ++ (dep_env h d2 ++ sub2) ++ c ∧
    build_env_for_part (pred fuel) h d1 = Ret sub1 ∧
    build_env_for_part (pred fuel) h d2 = Ret sub2 ∧
    sub1 = x1 ++ dep_env h shared ++ y1 ∧
    sub2 = x2 ++ dep_env h shared ++ y2.
Proof.
  intros Hrank Hdeps Hs1 Hs2 Hfuel.
  destruct (build_env_for_part_terminates h rank fuel part Hrank Hfuel)
    as [res Hres].
  destruct fuel as [|fuel]; [done|].
  pose proof Hres as (subs & HF & ->)%build_env_for_part_Ret.
  rewrite Hdeps in HF, Hres.
  destruct (build_env_split _ (λ dep sub, dep_env h dep ++ sub) _ _ _ _ HF)
    as (s1 & sub1 & s' & _ & Hd1 & HF' & Heq1).
  destruct (build_env_split _ (λ dep sub, dep_env h dep ++ sub) _ _ _ _ HF')
    as (s2 & sub2 & s3 & _ & Hd2 & _ & Heq2).
  rewrite Heq1, Heq2 in Hres.
  apply list_elem_of_split in Hs1 as (m1 & m2 & Hm1).
  apply list_elem_of_split in Hs2 as (n1 & n2 & Hn1).
  destruct (build_env_for_part_dep _ _ _ _ _ _ _ Hd1 Hm1)
    as (x1 & t1 & y1 & _ & Hsub1).
  destruct (build_env_for_part_dep _ _ _ _ _ _ _ Hd2 Hn1)
    as (x2 & t2 & y2 & _ & Hsub2).
  exists (concat (zip_with (λ dep sub, dep_env h dep ++ sub) l1 s1)
          ++ (dep_env h d1 ++ sub1)
          ++ concat (zip_with (λ dep sub, dep_env h dep ++ sub) l2 s2)
          ++ (dep_env h d2 ++ sub2)
          ++ concat (zip_with (λ dep sub, dep_env h dep ++ sub) l3 s3)).
  exists sub1, sub2. eexists _, _, _. exists x1, (t1 ++ y1), x2, (t2 ++ y2).
  split_and!; [ |reflexivity|done|done| | ].
  - by rewrite Hres, <- !app_assoc.
  - by rewrite Hsub1, <- !app_assoc.
  - by rewrite Hsub2, <- !app_assoc.
Qed.

End Environments.

(** C7. For every root, [runtime_env(root)] with the architecture triplet
    [x86_64-linux-gnu] is the list of the two assignments of [PATH] and of
    [LD_LIBRARY_PATH], in that order, with the root put in at each place. *)
Theorem runtime_env_x86_64 (root : string) :
  runtime_env "x86_64-linux-gnu" root
  = [ "PATH=" +:+ dquote +:+ root +:+ "/bin:" +:+ root
      +:+ "/usr/bin:$PATH" +:+ dquote;
      "LD_LIBRARY_PATH=" +:+ dquote +:+ root +:+ "/lib:" +:+ root
      +:+ "/usr/lib:" +:+ root +:+ "/lib/x86_64-linux-gnu:" +:+ root
      +:+ "/usr/lib/x86_64-linux-gnu:$LD_LIBRARY_PATH" +:+ dquote ].
Proof. reflexivity. Qed.


(** ** More on the environments *)

Lemma foldl_append {A B} (f : A → list B) (l : list A) (acc : list B) :
  foldl (λ acc x, acc ++ f x) acc l = acc ++ (l ≫= f).
Proof.
  revert acc. induction l as [|x l IH]; intros acc; cbn [foldl].
  - by rewrite app_nil_r.
  - by rewrite IH, bind_cons, app_assoc.
Qed.

Lemma build_env_loop_no_raise (triplet : string)
    (recurse : ref → result (list string)) h l acc e :
  (∀ x e', recurse x ≠ Raise e') →
  for_each (build_env_for_dep triplet recurse h) l acc ≠ Raise e.
Proof.
  intros Hrec. revert acc. induction l as [|x l IH]; intros acc; [done|].
  cbn [for_each].
  destruct (build_env_for_dep triplet recurse h acc x) as [acc1|e'|] eqn:Hd;
    simpl; [apply IH| |done].
  unfold build_env_for_dep in Hd.
  destruct (recurse x) as [sub|e''|] eqn:Hx; simpl in Hd; [done| |done].
  by destruct (Hrec x e'').
Qed.

Lemma build_env_for_part_no_raise (triplet : string) fuel h part e :
  build_env_for_part triplet fuel h part ≠ Raise e.
Proof.
  revert part e. induction fuel as [|fuel IH]; intros part e; [done|].
  cbn [build_env_for_part]. by apply build_env_loop_no_raise.
Qed.

Lemma build_env_loop_out (triplet : string)
    (recurse : ref → result (list string)) h l acc d :
  (∀ x e, recurse x ≠ Raise e) →
  d ∈ l → recurse d = OutOfFuel →
  for_each (build_env_for_dep triplet recurse h) l acc = OutOfFuel.
Proof.
  intros Hrec Hd Hout. revert acc.
  induction l as [|x l IH]; intros acc; [by apply elem_of_nil in Hd|].
  cbn [for_each].
  destruct (build_env_for_dep triplet recurse h acc x) as [acc1|e'|] eqn:Hx;
    simpl; [| |done].
  - apply (build_env_for_dep_Ret triplet) in Hx as (sub & Hx & _).
    apply IH. apply elem_of_cons in Hd as [->|Hd]; [congruence|done].
  - by destruct (build_env_loop_no_raise triplet recurse h [x] acc e' Hrec);
      cbn [for_each]; rewrite Hx.
Qed.

(** A chain of dependencies of [n] links below a part needs a recursion
    of more than [n] nested calls. *)
Lemma build_env_for_part_chain (triplet : string) h fuel n part q :
  nsteps (λ p d, d ∈ deps_of h p) n part q → fuel ≤ n →
  build_env_for_part triplet fuel h part = OutOfFuel.
Proof.
  revert n part. induction fuel as [|fuel IH]; intros n part Hn Hle; [done|].
  destruct Hn as [|n part d q Hd Hn]; [lia|].
  cbn [build_env_for_part]. apply build_env_loop_out with d; [|done|].
  - intros x e. apply build_env_for_part_no_raise.
  - apply (IH n); [done|lia].
Qed.

(** X13. The recursion of [build_env_for_part] is as deep as the chains of
    dependencies below the part.  With room for [depth] nested calls, it
    returns on every part of a constructed configuration when [depth] is
    more than the number of parts, and it runs out of depth (in Python, a
    [RecursionError]) when some chain of dependencies below the part has
    [depth] links or more. *)
Theorem build_env_for_part_constructed
    (snapcraft_plugin : string → string → Properties → Plugin)
    (get_arch_triplet : string) fuel data cfg part depth :
  __init__ snapcraft_plugin fuel data = Ret cfg →
  (length (all_parts cfg) < depth →
   ∃ res,
     build_env_for_part get_arch_triplet depth (heap cfg) part = Ret res) ∧
  (∀ n q, nsteps (λ p d, d ∈ deps_of (heap cfg) p) n part q → depth ≤ n →
     build_env_for_part get_arch_triplet depth (heap cfg) part = OutOfFuel).
Proof.
  intros (rank & Hrank & Hbound)%constructed_rank. split.
  - intros Hdepth. apply build_env_for_part_terminates with rank; [done|].
    specialize (Hbound part). lia.
  - intros n q. apply build_env_for_part_chain.
Qed.

(** X14. For every root and architecture triplet, [build_env(root)] is the
    list of the two assignments of [CFLAGS] and of [LDFLAGS], in that
    order, with the root and the triplet put in at each place. *)
Theorem build_env_strings (triplet root : string) :
  build_env triplet root
  = [ "CFLAGS=" +:+ dquote +:+ "-I" +:+ root +:+ "/include -I" +:+ root
      +:+ "/usr/include -I" +:+ root +:+ "/include/" +:+ triplet
      +:+ " -I" +:+ root +:+ "/usr/include/" +:+ triplet
      +:+ " $CFLAGS" +:+ dquote;
      "LDFLAGS=" +:+ dquote +:+ "-L" +:+ root +:+ "/lib -L" +:+ root
      +:+ "/usr/lib -L" +:+ root +:+ "/lib/" +:+ triplet
      +:+ " -L" +:+ root +:+ "/usr/lib/" +:+ triplet
      +:+ " $LDFLAGS" +:+ dquote ].
Proof. reflexivity. Qed.

(** X15. [stage_env] and [snap_env] are flat: the runtime environment of
    the directory (and, for [stage_env] only, its build environment)
    followed by the own environment of each part of [all_parts], in that
    order and once for each; the dependencies of a part are not
    descended into. *)
Theorem stage_snap_env_flat (triplet stagedir snapdir : string) self :
  stage_env triplet stagedir self
  = runtime_env triplet stagedir ++ build_env triplet stagedir
    ++ (all_parts self ≫= λ part, env (heap self !!! part) stagedir) ∧
  snap_env triplet snapdir self
  = runtime_env triplet snapdir
    ++ (all_parts self ≫= λ part, env (heap self !!! part) snapdir).
Proof.
  unfold stage_env, snap_env. split.
  - by rewrite (foldl_append (λ part, env (heap self !!! part) stagedir)),
      <- app_assoc.
  - by rewrite (foldl_append (λ part, env (heap self !!! part) snapdir)).
Qed.


(** ** The theorems on the example inputs *)

Ltac elems :=
  repeat match goal with
  | H : _ ∈ [] |- _ => by apply elem_of_nil in H
  | H : _ ∈ _ :: _ |- _ =>
    let E := fresh in
    apply elem_of_cons in H as [E|H]; [first [discriminate E|subst]|]
  end.

Ltac by_decide := apply (bool_decide_unpack _); vm_compute; exact I.

Ltac compute_elems H :=
  match type of H with
  | ?x ∈ ?l => let l' := eval vm_compute in l in change (x ∈ l') in H
  end.

Lemma example_universe n :
  config_get (required_part Example.loader n) "requires" ⊆ Example.universe.
Proof.
  unfold config_get, required_part, plugin_load_plugin. simpl.
  rewrite lookup_singleton_eq. simpl.
  unfold Example.requires_of, Example.universe.
  repeat case_decide; intros x Hx; elems; by_decide.
Qed.

Lemma sort_parts_dependencies_first_witness :
  acyclic (heap (Example.graph_of Example.chain)) [0; 1; 2] ∧
  deps_closed (heap (Example.graph_of Example.chain)) [0; 1; 2] ∧
  ∃ sorted,
    _sort_parts (heap (Example.graph_of Example.chain)) [0; 1; 2] = Ret sorted ∧
    sorted ≡ₚ [0; 1; 2] ∧
    (∀ P, P ∈ sorted ↔ P ∈ [0; 1; 2]) ∧
    ∀ P D, P ∈ [0; 1; 2] →
      D ∈ deps_of (heap (Example.graph_of Example.chain)) P →
      ∃ i j, index D sorted = Some i ∧ index P sorted = Some j ∧ i < j.
Proof.
  assert (acyclic (heap (Example.graph_of Example.chain)) [0; 1; 2]) as Hac.
  { apply ranked_acyclic with (λ r, 3 - r). intros P D (HP & _ & HD).
    elems; compute_elems HD; elems; simpl; lia. }
  assert (deps_closed (heap (Example.graph_of Example.chain)) [0; 1; 2])
    as Hcl.
  { intros P D HP HD. elems; compute_elems HD; elems; by_decide. }
  split; [done|]. split; [done|].
  by apply sort_parts_dependencies_first.
Defined.

Lemma sort_parts_circular_witness :
  cyclic (heap (Example.graph_of Example.loop2)) [0; 1] ∧
  _sort_parts (heap (Example.graph_of Example.loop2)) [0; 1]
  = Raise circular_dependency ∧
  __init__ Example.loader 8 Example.loop2 = Raise circular_dependency.
Proof.
  assert (cyclic (heap (Example.graph_of Example.loop2)) [0; 1]) as Hc.
  { apply mutual_dependency_cyclic with 0 1; by_decide. }
  split; [done|].
  destruct (sort_parts_circular Example.loader _ _ Hc) as [Hs Hi].
  split; [done|]. by apply (Hi 8 Example.loop2 (Example.graph_of Example.loop2)).
Defined.

Lemma sort_parts_terminates_witness :
  sort_loop 7 (heap (Example.graph_of Example.chain)) [0; 1; 2] []
  = _sort_parts (heap (Example.graph_of Example.chain)) [0; 1; 2].
Proof.
  apply (sort_parts_terminates (heap (Example.graph_of Example.chain))
           [0; 1; 2]).
  simpl. lia.
Defined.

Lemma sort_parts_permutation_witness :
  _sort_parts (heap (Example.graph_of Example.chain)) [0; 1; 2]
  = Ret [2; 1; 0] ∧
  [2; 1; 0] ≡ₚ [0; 1; 2] ∧
  (∀ p, p ∈ [2; 1; 0] ↔ p ∈ [0; 1; 2]) ∧
  (∀ p, count_occ Nat.eq_dec [2; 1; 0] p = count_occ Nat.eq_dec [0; 1; 2] p) ∧
  (NoDup [0; 1; 2] → ∀ p, p ∈ [0; 1; 2] →
     count_occ Nat.eq_dec [2; 1; 0] p = 1) ∧
  length [2; 1; 0] = length [0; 1; 2].
Proof.
  split; [by vm_compute|].
  apply (sort_parts_permutation (heap (Example.graph_of Example.chain))).
  by vm_compute.
Defined.

Lemma deps_requires_then_after_witness :
  build_graph Example.loader 8 Example.twice
  = Ret (Example.graph_of Example.twice) ∧
  0 ∈ all_parts (Example.graph_of Example.twice) ∧
  let p := heap (Example.graph_of Example.twice) !!! 0 in
  let afterRequests :=
    after_requests (default [] (yaml_parts Example.twice)) in
  Forall2 (λ dep found,
             find_part (Example.graph_of Example.twice) dep = Some found)
          (config_get p "requires" ++ default [] (afterRequests !! name p))
          (deps p) ∧
  length (deps p)
  = length (config_get p "requires")
    + length (default [] (afterRequests !! name p)).
Proof.
  split; [reflexivity|]. split; [by_decide|].
  apply (deps_requires_then_after Example.loader 8 Example.twice);
    [reflexivity|by_decide].
Defined.

(** C3, counterexample.  The part [a] requires [b] and comes after [b]:
    its [deps] holds the part [b] twice. *)
Lemma deps_not_deduplicated :
  build_graph Example.loader 8 Example.twice
  = Ret (Example.graph_of Example.twice) ∧
  config_get (heap (Example.graph_of Example.twice) !!! 0) "requires" = ["b"] ∧
  after_requests (default [] (yaml_parts Example.twice)) !! "a" = Some ["b"] ∧
  deps (heap (Example.graph_of Example.twice) !!! 0) = [1; 1] ∧
  ¬ NoDup (deps (heap (Example.graph_of Example.twice) !!! 0)).
Proof.
  split_and!; [reflexivity..|].
  intros [Hnin _]%NoDup_cons. apply Hnin. by_decide.
Qed.



Lemma required_part_is_loaded_witness :
  ("app", None) ∈ default [] (yaml_parts Example.app) ∧
  "foo" ∈ config_get (declared_part Example.loader ("app", None)) "requires" ∧
  ("foo" ∉ (default [] (yaml_parts Example.app)).*1) ∧
  (∃ fuel0, ∀ fuel, fuel0 ≤ fuel →
     ∃ self afterRequests,
       load_parts Example.loader fuel Example.app
       = Ret (self, afterRequests)) ∧
  (∃ r, r ∈ all_parts (Example.loaded_of Example.app) ∧
        length (default [] (yaml_parts Example.app)) ≤ r ∧
        heap (Example.loaded_of Example.app) !!! r
        = plugin_load_plugin Example.loader "foo" "foo" no_properties ∧
        name (heap (Example.loaded_of Example.app) !!! r) = "foo" ∧
        pluginName (heap (Example.loaded_of Example.app) !!! r) = "foo" ∧
        properties (heap (Example.loaded_of Example.app) !!! r)
        = no_properties ∧
        ∀ r', r' ∈ all_parts (Example.loaded_of Example.app) →
              name (heap (Example.loaded_of Example.app) !!! r') = "foo" →
              r' = r) ∧
  (∃ r, r ∈ all_parts (Example.config_of Example.app) ∧
        name (heap (Example.config_of Example.app) !!! r) = "foo" ∧
        pluginName (heap (Example.config_of Example.app) !!! r) = "foo" ∧
        properties (heap (Example.config_of Example.app) !!! r)
        = no_properties).
Proof.
  assert (("app", None) ∈ default [] (yaml_parts Example.app)) as H1
    by (apply elem_of_cons; by left).
  assert ("foo" ∈ config_get (declared_part Example.loader ("app", None))
                             "requires") as H2 by by_decide.
  assert ("foo" ∉ (default [] (yaml_parts Example.app)).*1) as H3.
  { intros H. compute_elems H. by elems. }
  destruct (required_part_is_loaded Example.loader Example.universe
              Example.app "app" None "foo" H1 H2 H3) as (Ht & Hl & Hc).
  split_and!; [done..| | |].
  - apply Ht. apply example_universe.
  - apply (Hl 8 (Example.loaded_of Example.app) ∅). reflexivity.
  - apply (Hc 8). reflexivity.
Defined.

Lemma after_never_triggers_loading_witness :
  load_parts Example.loader 8 Example.after_only
  = Ret (Example.loaded_of Example.after_only,
         after_requests (default [] (yaml_parts Example.after_only))) ∧
  1 ∈ all_parts (Example.loaded_of Example.after_only) ∧
  "foo" ∈ config_get (heap (Example.loaded_of Example.after_only) !!! 0)
                     "requires" ∧
  name (heap (Example.loaded_of Example.after_only) !!! 1) = "foo" ∧
  ("zzz" ∉ name <$> heap (Example.loaded_of Example.after_only)) ∧
  build_graph Example.loader 8 Example.after_only = Raise (SystemExit 1) ∧
  __init__ Example.loader 8 Example.after_only = Raise (SystemExit 1).
Proof.
  assert (load_parts Example.loader 8 Example.after_only
          = Ret (Example.loaded_of Example.after_only,
                 after_requests (default [] (yaml_parts Example.after_only))))
    as Hload by (by vm_compute).
  destruct (after_never_triggers_loading Example.loader _ _ _ _ Hload)
    as (_ & _ & _ & Hafter).
  split_and!; [done|by_decide|by_decide|reflexivity|..];
    apply (Hafter 0 "zzz"); try by_decide.
  all: intros p Hp Hz; compute_elems Hp; elems; compute_elems Hz; by elems.
Defined.

Lemma build_env_for_part_diamond_witness :
  let h := heap (Example.graph_of Example.diamond) in
  (∀ p d, d ∈ deps_of h p → 4 - d < 4 - p) ∧
  deps_of h 0 = [] ++ 1 :: [] ++ 2 :: [] ∧
  3 ∈ deps_of h 1 ∧
  3 ∈ deps_of h 2 ∧
  4 - 0 < 5 ∧
  ∃ res sub1 sub2 a b c x1 y1 x2 y2,
    build_env_for_part Example.triplet 5 h 0 = Ret res ∧
    res = a ++ (dep_env Example.triplet h 1 ++ sub1) ++ b
            ++ (dep_env Example.triplet h 2 ++ sub2) ++ c ∧
    build_env_for_part Example.triplet (pred 5) h 1 = Ret sub1 ∧
    build_env_for_part Example.triplet (pred 5) h 2 = Ret sub2 ∧
    sub1 = x1 ++ dep_env Example.triplet h 3 ++ y1 ∧
    sub2 = x2 ++ dep_env Example.triplet h 3 ++ y2.
Proof.
  intros h.
  assert (∀ p d, d ∈ deps_of h p → 4 - d < 4 - p) as Hrank.
  { intros p d Hd. destruct p as [|[|[|[|p]]]];
      compute_elems Hd; elems; simpl; lia. }
  assert (deps_of h 0 = [] ++ 1 :: [] ++ 2 :: []) as Hdeps by reflexivity.
  assert (3 ∈ deps_of h 1) as H1 by by_decide.
  assert (3 ∈ deps_of h 2) as H2 by by_decide.
  assert (4 - 0 < 5) as Hfuel by (simpl; lia).
  split_and!; [done..|].
  exact (build_env_for_part_diamond Example.triplet h (λ r, 4 - r) 5
           0 1 2 3 [] [] [] Hrank Hdeps H1 H2 Hfuel).
Defined.

(** The scenario of the parts [a], [b] and [c]: [c] is built first. *)
Lemma chain_sorted :
  (λ r, name (heap (Example.config_of Example.chain) !!! r))
    <$> all_parts (Example.config_of Example.chain)
  = ["c"; "b"; "a"].
Proof. reflexivity. Qed.

(** The diamond of the example, spelled out: the environment of [base]
    comes once after that of [left] and once after that of [right]. *)
Lemma build_env_for_part_diamond_example :
  let h := heap (Example.graph_of Example.diamond) in
  build_env_for_part Example.triplet 3 h 0
  = Ret (dep_env Example.triplet h 1 ++ dep_env Example.triplet h 3
         ++ dep_env Example.triplet h 2 ++ dep_env Example.triplet h 3).
Proof. by vm_compute. Qed.

Lemma sort_parts_returns_iff_acyclic_witness :
  (¬ acyclic (heap (Example.graph_of Example.loop2)) [0; 1]) ∧
  _sort_parts (heap (Example.graph_of Example.loop2)) [0; 1]
  = Raise circular_dependency.
Proof.
  assert (¬ acyclic (heap (Example.graph_of Example.loop2)) [0; 1]) as Hnot.
  { intros Hac. apply (Hac 0).
    apply tc_l with 1; [|apply tc_once]; split_and!; by_decide. }
  split; [done|]. by apply sort_parts_returns_iff_acyclic.
Defined.

Lemma sort_parts_independent_witness :
  (∀ p d, p ∈ [1; 2] →
          d ∈ deps_of (heap (Example.graph_of Example.diamond)) p →
          d ∉ [1; 2]) ∧
  _sort_parts (heap (Example.graph_of Example.diamond)) [1; 2]
  = Ret (reverse [1; 2]).
Proof.
  assert (∀ p d, p ∈ [1; 2] →
            d ∈ deps_of (heap (Example.graph_of Example.diamond)) p →
            d ∉ [1; 2]) as Hind.
  { intros p d Hp Hd Hin. elems; compute_elems Hd; by elems. }
  split; [done|]. by apply sort_parts_independent.
Defined.

Lemma sort_parts_last_witness :
  _sort_parts (heap (Example.graph_of Example.diamond)) [3; 1; 0; 2]
  = Ret [3; 2; 1; 0] ∧
  [3; 1; 0; 2] ≠ [] ∧
  ∃ top before behind,
    [3; 1; 0; 2] = before ++ top :: behind ∧
    last [3; 2; 1; 0] = Some top ∧
    (∀ other, other ∈ [3; 1; 0; 2] →
       top ∉ deps_of (heap (Example.graph_of Example.diamond)) other) ∧
    (∀ x, x ∈ before →
       ∃ other, other ∈ [3; 1; 0; 2] ∧
                x ∈ deps_of (heap (Example.graph_of Example.diamond)) other).
Proof.
  split; [reflexivity|]. split; [done|].
  by apply (sort_parts_last (heap (Example.graph_of Example.diamond))).
Defined.

Lemma init_build_tools_witness :
  let cfg :=
    {| heap := heap (match __init__ Example.tooled_loader 8
                             Example.tooled_chain with
                     | Ret cfg => cfg
                     | _ => new_config Example.tooled_chain
                     end);
       build_tools := ["git"; "make"; "make"; "make"];
       all_parts := [2; 1; 0] |} in
  __init__ Example.tooled_loader 8 Example.tooled_chain = Ret cfg ∧
  build_tools cfg
  = default [] (yaml_build_tools Example.tooled_chain)
    ++ (heap cfg ≫= part_build_tools).
Proof.
  intros cfg. split; [reflexivity|].
  apply (init_build_tools Example.tooled_loader 8 Example.tooled_chain).
  reflexivity.
Defined.

Lemma constructed_names_distinct_witness :
  NoDup (default [] (yaml_parts Example.app)).*1 ∧
  __init__ Example.loader 8 Example.app
  = Ret (Example.config_of Example.app) ∧
  NoDup (name <$> heap (Example.config_of Example.app)) ∧
  ∀ r1 r2, r1 ∈ all_parts (Example.config_of Example.app) →
           r2 ∈ all_parts (Example.config_of Example.app) →
           name (heap (Example.config_of Example.app) !!! r1)
           = name (heap (Example.config_of Example.app) !!! r2) → r1 = r2.
Proof.
  assert (NoDup (default [] (yaml_parts Example.app)).*1) as Hnd
    by by_decide.
  split; [done|]. split; [reflexivity|].
  apply (constructed_names_distinct Example.loader 8 Example.app);
    [done|reflexivity].
Defined.

Lemma build_graph_returns_iff_witness :
  load_parts Example.loader 8 Example.after_only
  = Ret (Example.loaded_of Example.after_only,
         after_requests (default [] (yaml_parts Example.after_only))) ∧
  ((∃ self, build_graph Example.loader 8 Example.after_only = Ret self) ↔
   ∀ r n, r ∈ all_parts (Example.loaded_of Example.after_only) →
          n ∈ default []
                (after_requests (default [] (yaml_parts Example.after_only))
                 !! name (heap (Example.loaded_of Example.after_only) !!! r)) →
          n ∈ name <$> heap (Example.loaded_of Example.after_only)) ∧
  ((∃ self, build_graph Example.loader 8 Example.after_only = Ret self)
   ∨ build_graph Example.loader 8 Example.after_only = Raise (SystemExit 1)).
Proof.
  assert (load_parts Example.loader 8 Example.after_only
          = Ret (Example.loaded_of Example.after_only,
                 after_requests (default [] (yaml_parts Example.after_only))))
    as Hload by (by vm_compute).
  split; [done|]. by apply build_graph_returns_iff.
Defined.

Lemma constructed_config_wellformed_witness :
  __init__ Example.loader 8 Example.diamond
  = Ret (Example.config_of Example.diamond) ∧
  all_parts (Example.config_of Example.diamond)
  ≡ₚ seq 0 (length (heap (Example.config_of Example.diamond))) ∧
  NoDup (all_parts (Example.config_of Example.diamond)) ∧
  deps_closed (heap (Example.config_of Example.diamond))
              (all_parts (Example.config_of Example.diamond)) ∧
  acyclic (heap (Example.config_of Example.diamond))
          (all_parts (Example.config_of Example.diamond)).
Proof.
  split; [reflexivity|].
  apply (constructed_config_wellformed Example.loader 8 Example.diamond).
  reflexivity.
Defined.

Lemma declared_parts_loaded_first_witness :
  load_parts_shared Example.loader 8 Example.aliased
  = Ret ((Example.loaded_shared_of Example.aliased).1.1,
         (Example.loaded_shared_of Example.aliased).1.2,
         (Example.loaded_shared_of Example.aliased).2) ∧
  default [] (doc_parts Example.aliased) !! 1 = Some ("b", Some 0) ∧
  all_parts (Example.loaded_shared_of Example.aliased).1.1 !! 1 = Some 1 ∧
  name (heap (Example.loaded_shared_of Example.aliased).1.1 !!! 1) = "b" ∧
  pluginName (heap (Example.loaded_shared_of Example.aliased).1.1 !!! 1)
  = "b" ∧
  properties (heap (Example.loaded_shared_of Example.aliased).1.1 !!! 1)
  = no_properties.
Proof.
  assert (load_parts_shared Example.loader 8 Example.aliased
          = Ret ((Example.loaded_shared_of Example.aliased).1.1,
                 (Example.loaded_shared_of Example.aliased).1.2,
                 (Example.loaded_shared_of Example.aliased).2))
    as Hload by (by vm_compute).
  split; [done|]. split; [reflexivity|].
  exact (declared_parts_loaded_first Example.loader 8 Example.aliased
           _ _ _ 1 "b" (Some 0) Hload eq_refl).
Defined.

Lemma edge_attachment_only_deps_witness :
  load_parts Example.loader 8 Example.twice
  = Ret (Example.loaded_of Example.twice,
         after_requests (default [] (yaml_parts Example.twice))) ∧
  build_graph Example.loader 8 Example.twice
  = Ret (Example.graph_of Example.twice) ∧
  all_parts (Example.graph_of Example.twice)
  = all_parts (Example.loaded_of Example.twice) ∧
  build_tools (Example.graph_of Example.twice)
  = build_tools (Example.loaded_of Example.twice) ∧
  length (heap (Example.graph_of Example.twice))
  = length (heap (Example.loaded_of Example.twice)) ∧
  ∀ r, heap (Example.graph_of Example.twice) !!! r
       = set_deps (heap (Example.loaded_of Example.twice) !!! r)
                  (deps (heap (Example.graph_of Example.twice) !!! r)).
Proof.
  assert (load_parts Example.loader 8 Example.twice
          = Ret (Example.loaded_of Example.twice,
                 after_requests (default [] (yaml_parts Example.twice))))
    as Hload by (by vm_compute).
  split; [done|]. split; [reflexivity|].
  exact (edge_attachment_only_deps Example.loader 8 Example.twice
           (Example.loaded_of Example.twice)
           (after_requests (default [] (yaml_parts Example.twice)))
           (Example.graph_of Example.twice) Hload eq_refl).
Defined.




Lemma deps_names_witness :
  build_graph Example.loader 8 Example.twice
  = Ret (Example.graph_of Example.twice) ∧
  0 ∈ all_parts (Example.graph_of Example.twice) ∧
  (λ d, name (heap (Example.graph_of Example.twice) !!! d))
    <$> deps (heap (Example.graph_of Example.twice) !!! 0)
  = config_get (heap (Example.graph_of Example.twice) !!! 0) "requires"
    ++ default [] (after_requests (default [] (yaml_parts Example.twice))
                   !! name (heap (Example.graph_of Example.twice) !!! 0)).
Proof.
  split; [reflexivity|]. split; [by_decide|].
  apply (deps_names Example.loader 8 Example.twice); [reflexivity|by_decide].
Defined.

Lemma init_without_parts_witness :
  default [] (yaml_parts Example.no_parts) = [] ∧
  __init__ Example.loader 0 Example.no_parts
  = Ret {| heap := [];
           build_tools := default [] (yaml_build_tools Example.no_parts);
           all_parts := [] |}.
Proof.
  split; [reflexivity|].
  apply (init_without_parts Example.loader 0 Example.no_parts). reflexivity.
Defined.

Lemma build_env_for_part_constructed_witness :
  __init__ Example.loader 8 Example.chain
  = Ret (Example.config_of Example.chain) ∧
  (length (all_parts (Example.config_of Example.chain)) < 4 ∧
   ∃ res,
     build_env_for_part Example.triplet 4
       (heap (Example.config_of Example.chain)) 0 = Ret res) ∧
  (nsteps (λ p d, d ∈ deps_of (heap (Example.config_of Example.chain)) p)
          2 0 2 ∧
   2 ≤ 2 ∧
   build_env_for_part Example.triplet 2
     (heap (Example.config_of Example.chain)) 0 = OutOfFuel).
Proof.
  assert (__init__ Example.loader 8 Example.chain
          = Ret (Example.config_of Example.chain)) as Hinit by reflexivity.
  assert (nsteps (λ p d, d ∈ deps_of (heap (Example.config_of Example.chain)) p)
                 2 0 2) as Hchain.
  { apply nsteps_l with 1; [by_decide|].
    apply nsteps_l with 2; [by_decide|]. apply nsteps_O. }
  split; [done|]. split.
  - split; [vm_compute; lia|].
    apply (build_env_for_part_constructed Example.loader Example.triplet 8
             Example.chain _ 0 4 Hinit). vm_compute. lia.
  - split; [done|]. split; [lia|].
    by apply (proj2 (build_env_for_part_constructed Example.loader
                       Example.triplet 8 Example.chain _ 0 2 Hinit) 2 2).
Defined.

Lemma requires_closed_witness :
  load_parts Example.loader 8 Example.diamond
  = Ret (Example.loaded_of Example.diamond,
         after_requests (default [] (yaml_parts Example.diamond))) ∧
  1 ∈ all_parts (Example.loaded_of Example.diamond) ∧
  "base" ∈ config_get (heap (Example.loaded_of Example.diamond) !!! 1)
                      "requires" ∧
  ∃ q, q ∈ all_parts (Example.loaded_of Example.diamond) ∧
       name (heap (Example.loaded_of Example.diamond) !!! q) = "base".
Proof.
  assert (load_parts Example.loader 8 Example.diamond
          = Ret (Example.loaded_of Example.diamond,
                 after_requests (default [] (yaml_parts Example.diamond))))
    as Hload by (by vm_compute).
  assert (1 ∈ all_parts (Example.loaded_of Example.diamond)) as H1
    by by_decide.
  assert ("base" ∈ config_get (heap (Example.loaded_of Example.diamond) !!! 1)
                              "requires") as H2 by by_decide.
  split; [done|]. split; [done|]. split; [done|].
  exact (requires_closed Example.loader 8 Example.diamond _ _ 1 "base"
           Hload H1 H2).
Defined.
